(** * Robin Hood open-addressing hash table (robinhood/robinhood.go)

    A shallow embedding of [RobinHoodMap] and its methods, followed by the
    invariants of the table and the properties of [Put], [Get], [Remove],
    [resize], [Size] and [Clear].

    Modelling choices.
    - The slice [m.entries] is a [list entry]; [m.entries[i]] is the list
      lookup [slot es i], and an index outside the slice (a Go panic) makes
      the operation return [None].
    - [distance] is a [uint8]: every [dist++] and [entry.distance--] is
      reduced modulo 256 ([wrap8]).
    - [hash] returns a [uint64]: the digest is reduced modulo 2^64
      ([wrap64]).  The digest itself ([maphash] over [fmt.Sprintf("%v", key)])
      is a parameter [sum64] of the development: the code only relies on it
      being a function of the key.
    - [index] and [mask] are [uint64]; [(index + 1) & m.mask] is
      [Z.land (index + 1) mask].  Truncating [index + 1] to 64 bits first
      would not change the result, since [mask] itself has at most 64 bits.
    - [len(m.entries)] and [m.size] are Go [int]s.  They are bounded by the
      memory of the machine, far below 2^63, and are modelled as unbounded
      integers.
    - The test [float64(m.size+1)/float64(len(m.entries)) > m.loadFactor]
      with [loadFactor = 0.75] (set once by the constructor and never
      written again) is the exact comparison [3 * len < 4 * (size + 1)]:
      the length is a power of two, so the floating point division is exact.
    - The loops [for { ... }] are unbounded in the source; the model gives
      them a fuel argument and returns [None] when it runs out.  The
      theorems below state how much fuel is enough. *)

From Stdlib Require Import ZArith Lia.
From stdpp Require Import base decidable option list numbers.

Local Open Scope Z_scope.

(** ** Machine integers *)

Definition wrap8 (x : Z) : Z := x mod 256.
Definition wrap64 (x : Z) : Z := x mod 2 ^ 64.

Section RobinHood.

Context {K V : Type} `{EqDecision K}.

(** Zero values of the key and value types ([var zero V] in the source). *)
Variable zeroK : K.
Variable zeroV : V.

(** The 64-bit digest computed by [m.hasher] for a key. *)
Variable sum64 : K → Z.

(** ** Data model *)

(** The key type is [comparable] in the source; the model takes [==] on
    keys to be a decidable equality.  [distance] ranges over [0 .. 255]. *)
Record entry := mkEntry {
  key : K;
  value : V;
  distance : Z;
  occupied : bool
}.

(** The fields [loadFactor] (always 0.75) and [hasher] (whose buffer is
    empty again after every call of [hash]) are not part of the modelled
    state. *)
Record RobinHoodMap := mkMap {
  entries : list entry;
  size : Z;
  mask : Z
}.

(** [len(m.entries)] *)
Definition len (es : list entry) : Z := Z.of_nat (length es).

(** [m.entries[i]] read, and [m.entries[i] = e] written through the pointer
    [&m.entries[i]]. *)
Definition slot (es : list entry) (i : Z) : option entry := es !! Z.to_nat i.
Definition store (es : list entry) (i : Z) (e : entry) : list entry :=
  <[Z.to_nat i := e]> es.

(** [make([]entry[K, V], n)] *)
Definition make (n : Z) : list entry :=
  replicate (Z.to_nat n) (mkEntry zeroK zeroV 0 false).

Definition NewRobinHoodMap : RobinHoodMap :=
  let initialSize := 8 in
  {| entries := make initialSize; size := 0; mask := initialSize - 1 |}.

Definition hash (k : K) : Z := wrap64 (sum64 k).

(** [float64(size+1)/float64(len) > 0.75] *)
Definition over_load (sz n : Z) : bool := 3 * n <? 4 * (sz + 1).

(** ** Put *)

(** The probing loop of [Put].  The result is the new slice and whether a
    previously unoccupied slot was filled (the [m.size++] branch). *)
Fixpoint put_probe (fuel : nat) (es : list entry) (msk index : Z)
    (k : K) (v : V) (dist : Z) : option (list entry * bool) :=
  match fuel with
  | O => None
  | S fuel' =>
    match slot es index with
    | None => None
    | Some e =>
      if negb (occupied e) then
        Some (store es index (mkEntry k v dist true), true)
      else if decide (key e = k) then
        Some (store es index (mkEntry (key e) v (distance e) (occupied e)), false)
      else if distance e <? dist then
        put_probe fuel' (store es index (mkEntry k v dist (occupied e))) msk
          (Z.land (index + 1) msk) (key e) (value e) (wrap8 (distance e + 1))
      else
        put_probe fuel' es msk (Z.land (index + 1) msk) k v (wrap8 (dist + 1))
    end
  end.

(** The loop [for i := range oldEntries] of [resize], parameterised by the
    [Put] it calls for every occupied entry of the old slice. *)
Fixpoint reinsert (put : RobinHoodMap → K → V → option RobinHoodMap)
    (oldEntries : list entry) (m : RobinHoodMap) : option RobinHoodMap :=
  match oldEntries with
  | [] => Some m
  | e :: rest =>
    if occupied e then
      match put m (key e) (value e) with
      | None => None
      | Some m' => reinsert put rest m'
      end
    else reinsert put rest m
  end.

Definition resize_with (put : RobinHoodMap → K → V → option RobinHoodMap)
    (m : RobinHoodMap) : option RobinHoodMap :=
  let oldEntries := entries m in
  let newSize := len (entries m) * 2 in
  reinsert put oldEntries
    {| entries := make newSize; size := 0; mask := newSize - 1 |}.

Fixpoint Put (fuel : nat) (m : RobinHoodMap) (k : K) (v : V)
    : option RobinHoodMap :=
  match fuel with
  | O => None
  | S fuel' =>
    match (if over_load (size m) (len (entries m))
           then resize_with (Put fuel') m else Some m) with
    | None => None
    | Some m1 =>
      match put_probe fuel (entries m1) (mask m1)
              (Z.land (hash k) (mask m1)) k v 0 with
      | None => None
      | Some (es, fresh) =>
        Some {| entries := es;
                size := if fresh then size m1 + 1 else size m1;
                mask := mask m1 |}
      end
    end
  end.

Definition resize (fuel : nat) (m : RobinHoodMap) : option RobinHoodMap :=
  resize_with (Put fuel) m.

(** ** Get *)

Fixpoint get_probe (fuel : nat) (es : list entry) (msk index : Z)
    (k : K) (dist : Z) : option (V * bool) :=
  match fuel with
  | O => None
  | S fuel' =>
    match slot es index with
    | None => None
    | Some e =>
      if negb (occupied e) || (distance e <? dist) then Some (zeroV, false)
      else if decide (key e = k) then Some (value e, true)
      else get_probe fuel' es msk (Z.land (index + 1) msk) k (wrap8 (dist + 1))
    end
  end.

(** [Get] returns its result together with the table it leaves behind. *)
Definition Get (fuel : nat) (m : RobinHoodMap) (k : K)
    : option (V * bool * RobinHoodMap) :=
  match get_probe fuel (entries m) (mask m) (Z.land (hash k) (mask m)) k 0 with
  | None => None
  | Some r => Some (r, m)
  end.

(** ** Remove *)

(** The backward shift: [index] is the slot being vacated, [nextIndex] the
    slot after it. *)
Fixpoint shift_back (fuel : nat) (es : list entry) (msk index nextIndex : Z)
    : option (list entry) :=
  match fuel with
  | O => None
  | S fuel' =>
    match slot es nextIndex, slot es index with
    | Some nextEntry, Some e =>
      if negb (occupied nextEntry) || (distance nextEntry =? 0) then
        Some (store es index (mkEntry (key e) (value e) (distance e) false))
      else
        shift_back fuel'
          (store es index (mkEntry (key nextEntry) (value nextEntry)
                                   (wrap8 (distance nextEntry - 1))
                                   (occupied nextEntry)))
          msk nextIndex (Z.land (nextIndex + 1) msk)
    | _, _ => None
    end
  end.

(** The search loop of [Remove]; the result is the returned boolean and the
    new slice. *)
Fixpoint remove_probe (fuel : nat) (es : list entry) (msk index : Z)
    (k : K) (dist : Z) : option (bool * list entry) :=
  match fuel with
  | O => None
  | S fuel' =>
    match slot es index with
    | None => None
    | Some e =>
      if negb (occupied e) || (distance e <? dist) then Some (false, es)
      else if decide (key e = k) then
        match shift_back fuel' es msk index (Z.land (index + 1) msk) with
        | None => None
        | Some es' => Some (true, es')
        end
      else remove_probe fuel' es msk (Z.land (index + 1) msk) k (wrap8 (dist + 1))
    end
  end.

Definition Remove (fuel : nat) (m : RobinHoodMap) (k : K)
    : option (bool * RobinHoodMap) :=
  match remove_probe fuel (entries m) (mask m)
          (Z.land (hash k) (mask m)) k 0 with
  | None => None
  | Some (found, es) =>
    Some (found, {| entries := es;
                    size := if found then size m - 1 else size m;
                    mask := mask m |})
  end.

(** ** Size and Clear *)

Definition Size (m : RobinHoodMap) : Z * RobinHoodMap := (size m, m).

Definition Clear (m : RobinHoodMap) : RobinHoodMap :=
  {| entries := make 8; size := 0; mask := 7 |}.

(** ** Invariants and abstract view *)

(** Number of slots whose [occupied] flag is set. *)
Fixpoint occupancy (es : list entry) : Z :=
  match es with
  | [] => 0
  | e :: es' => (if occupied e then 1 else 0) + occupancy es'
  end.

(** The slot at index [i] exists and is unoccupied. *)
Definition vacant (es : list entry) (i : Z) : Prop :=
  ∃ e, slot es i = Some e ∧ occupied e = false.

(** The table stores key [k]: some occupied slot holds it. *)
Definition present (es : list entry) (k : K) : Prop :=
  ∃ p e, 0 ≤ p < len es ∧ slot es p = Some e ∧ occupied e = true ∧ key e = k.

(** The table maps [k] to [v]: some occupied slot holds the pair. *)
Definition holds (es : list entry) (k : K) (v : V) : Prop :=
  ∃ p e, 0 ≤ p < len es ∧ slot es p = Some e ∧ occupied e = true
         ∧ key e = k ∧ value e = v.

(** The slot array has [2^n] slots, [n >= 3], and [msk = 2^n - 1]. *)
Definition shape (es : list entry) (msk : Z) : Prop :=
  ∃ n, 3 ≤ n ∧ len es = 2 ^ n ∧ msk = 2 ^ n - 1.

(** Bookkeeping invariant: shape, [size] counts the occupied slots, and the
    load factor is at most 0.75. *)
Definition ok (m : RobinHoodMap) : Prop :=
  shape (entries m) (mask m)
  ∧ size m = occupancy (entries m)
  ∧ 4 * size m ≤ 3 * len (entries m).

(** [pos n h j] is the slot reached from slot [h] after [j] probing steps
    in a table of [n] slots. *)
Definition pos (n h j : Z) : Z := (h + j) mod n.

(** Home bucket of a key. *)
Definition home (msk : Z) (k : K) : Z := Z.land (hash k) msk.

(** The first [d] slots of the probe sequence of [k] are occupied by other
    keys, none of which would stop a search for [k]: the stored distance is
    at least the (8-bit) number of steps taken to reach the slot. *)
Definition probe_ok (es : list entry) (msk : Z) (k : K) (d : Z) : Prop :=
  ∀ j, 0 ≤ j < d →
    ∃ e, slot es (pos (len es) (home msk k) j) = Some e
         ∧ occupied e = true ∧ wrap8 j ≤ distance e ∧ key e ≠ k.

(** The entry [e] stored in slot [p] sits [d] steps after its home bucket,
    its stored distance is [d] truncated to 8 bits, and a search for its
    key reaches it. *)
Definition placed (es : list entry) (msk : Z) (p : Z) (e : entry) : Prop :=
  ∃ d, 0 ≤ d < len es
       ∧ p = pos (len es) (home msk (key e)) d
       ∧ distance e = wrap8 d
       ∧ probe_ok es msk (key e) d.

(** Robin Hood invariant (with 8-bit distances). *)
Definition robin (es : list entry) (msk : Z) : Prop :=
  ∀ p e, 0 ≤ p < len es → slot es p = Some e → occupied e = true →
         placed es msk p e.

(** The Robin Hood invariant together with the bookkeeping invariant. *)
Definition inv (m : RobinHoodMap) : Prop :=
  ok m ∧ robin (entries m) (mask m).

(** The table maps [k] to [v] in a slot other than [i]. *)
Definition holds_except (es : list entry) (i : Z) (k : K) (v : V) : Prop :=
  ∃ q e, 0 ≤ q < len es ∧ q ≠ i ∧ slot es q = Some e ∧ occupied e = true
         ∧ key e = k ∧ value e = v.

(** During the backward shift the slot [h] being vacated still holds a
    stale entry.  [robin_h] is the invariant of all the other slots, whose
    probe sequences may pass through [h]. *)
Definition probe_ok_h (es : list entry) (msk : Z) (k : K) (d h : Z) : Prop :=
  ∀ j, 0 ≤ j < d →
    pos (len es) (home msk k) j = h
    ∨ ∃ e, slot es (pos (len es) (home msk k) j) = Some e
           ∧ occupied e = true ∧ wrap8 j ≤ distance e ∧ key e ≠ k.

Definition robin_h (es : list entry) (msk h : Z) : Prop :=
  ∀ p e, 0 ≤ p < len es → p ≠ h → slot es p = Some e → occupied e = true →
    ∃ d, 0 ≤ d < len es
         ∧ p = pos (len es) (home msk (key e)) d
         ∧ distance e = wrap8 d
         ∧ probe_ok_h es msk (key e) d h.

(** The body of [Put] after the load-factor check. *)
Definition place (fuel : nat) (m1 : RobinHoodMap) (k : K) (v : V)
    : option RobinHoodMap :=
  match put_probe fuel (entries m1) (mask m1)
          (Z.land (hash k) (mask m1)) k v 0 with
  | None => None
  | Some (es, fresh) =>
    Some {| entries := es;
            size := if fresh then size m1 + 1 else size m1;
            mask := mask m1 |}
  end.

(** [m'] is [m] with the value of key [k] overwritten by [v] in its own
    slot: same size, same mask, and the slot arrays differ only in the value
    field of that slot. *)
Definition update_in_place (m m' : RobinHoodMap) (k : K) (v : V) : Prop :=
  size m' = size m ∧ mask m' = mask m
  ∧ ∃ p e, 0 ≤ p < len (entries m) ∧ slot (entries m) p = Some e
           ∧ occupied e = true ∧ key e = k
           ∧ entries m' = store (entries m) p
                            (mkEntry (key e) v (distance e) (occupied e)).

(** Every occupied slot stores its exact displacement from the home bucket
    of its key. *)
Definition distance_exact (m : RobinHoodMap) : Prop :=
  ∀ i e, 0 ≤ i < len (entries m) → slot (entries m) i = Some e →
         occupied e = true →
         distance e = (i - Z.land (hash (key e)) (mask m)) mod len (entries m).

(** No two distinct occupied slots hold equal keys. *)
Definition keys_unique (m : RobinHoodMap) : Prop :=
  ∀ i j e e', 0 ≤ i < len (entries m) → 0 ≤ j < len (entries m) →
              slot (entries m) i = Some e → slot (entries m) j = Some e' →
              occupied e = true → occupied e' = true → key e = key e' →
              i = j.

(** ** Reachable states *)

Inductive reachable : RobinHoodMap → Prop :=
| reach_new : reachable NewRobinHoodMap
| reach_put m fuel k v m' :
    reachable m → Put fuel m k v = Some m' → reachable m'
| reach_get m fuel k r m' :
    reachable m → Get fuel m k = Some (r, m') → reachable m'
| reach_remove m fuel k b m' :
    reachable m → Remove fuel m k = Some (b, m') → reachable m'
| reach_size m :
    reachable m → reachable (Size m).2
| reach_clear m :
    reachable m → reachable (Clear m).

(** A sequence of [Put] calls. *)
Fixpoint put_all (fuel : nat) (kvs : list (K * V)) (m : RobinHoodMap)
    : option RobinHoodMap :=
  match kvs with
  | [] => Some m
  | (k, v) :: kvs' =>
    match Put fuel m k v with
    | None => None
    | Some m' => put_all fuel kvs' m'
    end
  end.

(** [disp n h p] is the number of probing steps from slot [h] to slot [p]
    in a table of [n] slots. *)
Definition disp (n h p : Z) : Z := (p - h) mod n.

(** Every occupied slot stores its displacement from the home bucket of its
    key, truncated to 8 bits. *)
Definition distance_mod (es : list entry) (msk : Z) : Prop :=
  ∀ p e, 0 ≤ p < len es → slot es p = Some e → occupied e = true →
         distance e = wrap8 (disp (len es) (home msk (key e)) p).

(** The keys of the occupied slots, in slot order. *)
Fixpoint keys_of (es : list entry) : list K :=
  match es with
  | [] => []
  | e :: es' => if occupied e then key e :: keys_of es' else keys_of es'
  end.

(** The value written last for key [k] by a sequence of [Put] calls. *)
Fixpoint last_write (kvs : list (K * V)) (k : K) : option V :=
  match kvs with
  | [] => None
  | (k', v') :: rest =>
    match last_write rest k with
    | Some v => Some v
    | None => if decide (k' = k) then Some v' else None
    end
  end.

(** Tables of at least 256 slots: the length is a multiple of 256 and the
    stored distances follow the displacement modulo 256. *)
Definition large_ok (m : RobinHoodMap) : Prop :=
  shape (entries m) (mask m) ∧ 256 ≤ len (entries m)
  ∧ distance_mod (entries m) (mask m).

(** * Proofs *)

(** ** Arithmetic of probe positions *)

Lemma land_mask (n x : Z) : 0 ≤ n → Z.land x (2 ^ n - 1) = x mod 2 ^ n.
Proof.
  intros Hn. rewrite <- Z.land_ones by done.
  f_equal. rewrite Z.ones_equiv. lia.
Qed.

Lemma pos_range (n h j : Z) : 0 < n → 0 ≤ pos n h j < n.
Proof. intros Hn. unfold pos. apply Z.mod_pos_bound. done. Qed.

Lemma pos_0 (n h : Z) : 0 ≤ h < n → pos n h 0 = h.
Proof. intros Hh. unfold pos. rewrite Z.add_0_r. apply Z.mod_small. done. Qed.

Lemma pos_pos (n h a b : Z) : pos n (pos n h a) b = pos n h (a + b).
Proof.
  unfold pos. rewrite Zplus_mod_idemp_l. f_equal. lia.
Qed.

Lemma pos_inj (n h a b : Z) :
  0 ≤ a < n → 0 ≤ b < n → pos n h a = pos n h b → a = b.
Proof.
  unfold pos. intros Ha Hb Heq.
  assert (Hn : n ≠ 0) by lia.
  pose proof (Z.div_mod (h + a) n Hn) as H1.
  pose proof (Z.div_mod (h + b) n Hn) as H2.
  rewrite Heq in H1.
  assert (Hd : a - b = n * ((h + a) / n - (h + b) / n)) by lia.
  assert (Hq : (h + a) / n - (h + b) / n = 0) by nia.
  lia.
Qed.

Lemma pos_surj (n h p : Z) : 0 ≤ p < n → ∃ j, 0 ≤ j < n ∧ pos n h j = p.
Proof.
  intros Hp. exists ((p - h) mod n). split.
  - apply Z.mod_pos_bound. lia.
  - unfold pos. rewrite Zplus_mod_idemp_r.
    replace (h + (p - h)) with p by lia. apply Z.mod_small. done.
Qed.

Lemma wrap8_succ (j : Z) : wrap8 (wrap8 j + 1) = wrap8 (j + 1).
Proof. unfold wrap8. apply Zplus_mod_idemp_l. Qed.

Lemma wrap8_small (j : Z) : 0 ≤ j < 256 → wrap8 j = j.
Proof. intros Hj. unfold wrap8. apply Z.mod_small. done. Qed.

(** ** Reading and writing slots *)

Lemma len_nonneg (es : list entry) : 0 ≤ len es.
Proof. unfold len. lia. Qed.

Lemma len_store (es : list entry) (i : Z) (x : entry) :
  len (store es i x) = len es.
Proof. unfold len, store. by rewrite length_insert. Qed.

Lemma length_store (es : list entry) (i : Z) (x : entry) :
  length (store es i x) = length es.
Proof. unfold store. by rewrite length_insert. Qed.

Lemma slot_store_eq (es : list entry) (i : Z) (x : entry) :
  0 ≤ i < len es → slot (store es i x) i = Some x.
Proof.
  unfold slot, store, len. intros Hi.
  apply list_lookup_insert_eq. lia.
Qed.

Lemma slot_store_ne (es : list entry) (i j : Z) (x : entry) :
  0 ≤ i → 0 ≤ j → i ≠ j → slot (store es i x) j = slot es j.
Proof.
  unfold slot, store. intros Hi Hj Hne.
  apply list_lookup_insert_ne. lia.
Qed.

Lemma slot_is_Some (es : list entry) (i : Z) :
  0 ≤ i < len es → ∃ e, slot es i = Some e.
Proof.
  unfold slot, len. intros Hi.
  destruct (lookup_lt_is_Some_2 es (Z.to_nat i)) as [e He]; [lia|eauto].
Qed.

Lemma slot_Some_lt (es : list entry) (i : Z) (e : entry) :
  0 ≤ i → slot es i = Some e → i < len es.
Proof.
  unfold slot, len. intros Hi He.
  apply lookup_lt_Some in He. lia.
Qed.

Lemma occupancy_insert (es : list entry) (n : nat) (old x : entry) :
  es !! n = Some old →
  occupancy (<[n := x]> es)
  = occupancy es - (if occupied old then 1 else 0)
    + (if occupied x then 1 else 0).
Proof.
  revert n. induction es as [|e es IH]; intros [|n] Hn; simpl in *; try done.
  - injection Hn as ->. lia.
  - rewrite (IH n Hn). lia.
Qed.

Lemma occupancy_store (es : list entry) (i : Z) (old x : entry) :
  slot es i = Some old →
  occupancy (store es i x)
  = occupancy es - (if occupied old then 1 else 0)
    + (if occupied x then 1 else 0).
Proof. apply occupancy_insert. Qed.

Lemma occupancy_le (es : list entry) : 0 ≤ occupancy es ≤ len es.
Proof.
  unfold len. induction es as [|e es IH]; simpl; [lia|].
  destruct (occupied e); lia.
Qed.

Lemma occupancy_vacant (es : list entry) :
  occupancy es < len es → ∃ i, 0 ≤ i < len es ∧ vacant es i.
Proof.
  unfold len, vacant, slot.
  induction es as [|e es IH]; simpl; intros Hlt; [lia|].
  destruct (occupied e) eqn:Hocc.
  - destruct IH as (i & Hi & x & Hx & Hv); [lia|].
    exists (i + 1). split; [lia|]. exists x. split; [|done].
    replace (Z.to_nat (i + 1)) with (S (Z.to_nat i)) by lia. done.
  - exists 0. split; [lia|]. exists e. done.
Qed.

Lemma occupancy_replicate (n : nat) (e : entry) :
  occupied e = false → occupancy (replicate n e) = 0.
Proof. intros He. induction n as [|n IH]; simpl; [done|]. rewrite He, IH. done. Qed.

(** ** Shape of the slot array *)

Lemma shape_len (es : list entry) (msk : Z) : shape es msk → 8 ≤ len es.
Proof.
  intros (n & Hn & Hlen & _). rewrite Hlen.
  change 8 with (2 ^ 3). apply Z.pow_le_mono_r; lia.
Qed.

Lemma shape_land (es : list entry) (msk x : Z) :
  shape es msk → Z.land x msk = x mod len es.
Proof.
  intros (n & Hn & Hlen & ->). rewrite Hlen. apply land_mask. lia.
Qed.

Lemma shape_next (es : list entry) (msk i : Z) :
  shape es msk → Z.land (i + 1) msk = pos (len es) i 1.
Proof. intros Hs. by rewrite (shape_land es). Qed.

Lemma shape_store (es : list entry) (msk i : Z) (x : entry) :
  shape es msk → shape (store es i x) msk.
Proof. unfold shape. by rewrite len_store. Qed.

Lemma shape_same_length (es es' : list entry) (msk : Z) :
  length es' = length es → shape es msk → shape es' msk.
Proof. unfold shape, len. by intros ->. Qed.

Lemma vacant_store_ne (es : list entry) (i j : Z) (x : entry) :
  0 ≤ i → 0 ≤ j → i ≠ j → vacant es j → vacant (store es i x) j.
Proof.
  intros Hi Hj Hne (e & He & Hv). exists e.
  by rewrite slot_store_ne.
Qed.

Lemma pos_succ_ne (n i t : Z) :
  0 ≤ i < n → 0 ≤ t → t + 1 < n → pos n (pos n i 1) t ≠ i.
Proof.
  intros Hi Ht Hlt Heq. rewrite pos_pos in Heq.
  rewrite <- (pos_0 n i) in Heq at 2 by done.
  apply pos_inj in Heq; lia.
Qed.

(** ** The probing loop of Put on any table with a vacant slot *)

Lemma put_probe_basic (g : nat) :
  ∀ (es : list entry) (msk i : Z) (k : K) (v : V) (d : Z) (fuel : nat),
    shape es msk → 0 ≤ i < len es → Z.of_nat g < len es →
    vacant es (pos (len es) i (Z.of_nat g)) → (g < fuel)%nat →
    ∃ es' fresh,
      put_probe fuel es msk i k v d = Some (es', fresh)
      ∧ length es' = length es
      ∧ occupancy es' = occupancy es + (if fresh then 1 else 0)
      ∧ holds es' k v
      ∧ (∀ q, 0 ≤ q < len es →
              (∀ t, 0 ≤ t ≤ Z.of_nat g → q ≠ pos (len es) i t) →
              slot es' q = slot es q).
Proof.
  induction g as [|g IH]; intros es msk i k v d fuel Hs Hi Hg Hvac Hfuel;
    (destruct fuel as [|fuel]; [lia|]); simpl.
  - rewrite pos_0 in Hvac by done. destruct Hvac as (e & He & Hocc).
    rewrite He, Hocc. simpl. eexists _, true. split; [done|].
    split; [apply length_store|].
    split; [rewrite (occupancy_store _ _ e), Hocc by done; simpl; lia|].
    split.
    + exists i, (mkEntry k v d true). rewrite len_store, slot_store_eq by done. done.
    + intros q Hq Hne. apply slot_store_ne; [lia..|].
      intros ->. apply (Hne 0); [lia|]. by rewrite pos_0.
  - destruct (slot_is_Some es i Hi) as (e & He). rewrite He.
    destruct (occupied e) eqn:Hocc; simpl.
    2:{ eexists _, true. split; [done|].
        split; [apply length_store|].
        split; [rewrite (occupancy_store _ _ e), Hocc by done; simpl; lia|].
        split.
        + exists i, (mkEntry k v d true). rewrite len_store, slot_store_eq by done. done.
        + intros q Hq Hne. apply slot_store_ne; [lia..|].
          intros ->. apply (Hne 0); [lia|]. by rewrite pos_0. }
    destruct (decide (key e = k)) as [Hk|Hk].
    { eexists _, false. split; [done|].
      split; [apply length_store|].
      split; [rewrite (occupancy_store _ _ e), Hocc by done; simpl; lia|].
      split.
      + exists i, (mkEntry (key e) v (distance e) true).
        rewrite len_store, slot_store_eq by done. done.
      + intros q Hq Hne. apply slot_store_ne; [lia..|].
        intros ->. apply (Hne 0); [lia|]. by rewrite pos_0. }
    rewrite (shape_next es) by done.
    assert (Hi' : 0 ≤ pos (len es) i 1 < len es) by (apply pos_range; lia).
    assert (Hstep : pos (len es) (pos (len es) i 1) (Z.of_nat g)
                    = pos (len es) i (Z.of_nat (S g))).
    { rewrite pos_pos. f_equal. lia. }
    assert (Hvi : pos (len es) i (Z.of_nat (S g)) ≠ i).
    { rewrite <- Hstep. apply pos_succ_ne; lia. }
    destruct (distance e <? d).
    + set (es1 := store es i (mkEntry k v d true)).
      destruct (IH es1 msk (pos (len es) i 1) (key e) (value e)
                  (wrap8 (distance e + 1)) fuel)
        as (es' & fresh & Hrun & Hlen & Hocc' & _ & Hframe).
      * by apply shape_store.
      * unfold es1. by rewrite len_store.
      * unfold es1. rewrite len_store. lia.
      * unfold es1. rewrite len_store, Hstep.
        apply vacant_store_ne; [lia| |done|done].
        apply pos_range. lia.
      * lia.
      * unfold es1 in *. rewrite len_store in *.
        exists es', fresh. split; [done|].
        split; [by rewrite Hlen, length_store|].
        split; [rewrite Hocc', (occupancy_store _ _ e), Hocc by done; simpl; lia|].
        split.
        -- exists i, (mkEntry k v d true).
           replace (len es') with (len es)
             by (unfold len; rewrite Hlen, length_store; done).
           rewrite Hframe, slot_store_eq; [done|done|done|].
           intros t Ht Heq. symmetry in Heq. revert Heq.
           apply pos_succ_ne; lia.
        -- intros q Hq Hne. rewrite Hframe; [|done|].
           ++ apply slot_store_ne; [lia..|].
              intros ->. apply (Hne 0); [lia|]. by rewrite pos_0.
           ++ intros t Ht. rewrite pos_pos. apply Hne. lia.
    + destruct (IH es msk (pos (len es) i 1) k v (wrap8 (d + 1)) fuel)
        as (es' & fresh & Hrun & Hlen & Hocc' & Hholds & Hframe);
        [done|done|lia|by rewrite Hstep|lia|].
      exists es', fresh. repeat (split; [done|]).
      intros q Hq Hne. apply Hframe; [done|].
      intros t Ht. rewrite pos_pos. apply Hne. lia.
Qed.

(** ** More fuel never changes a result *)

Lemma put_probe_mono (fuel fuel' : nat) :
  ∀ es msk i k v d r,
    put_probe fuel es msk i k v d = Some r → (fuel ≤ fuel')%nat →
    put_probe fuel' es msk i k v d = Some r.
Proof.
  revert fuel'. induction fuel as [|fuel IH]; intros fuel' es msk i k v d r;
    simpl; [done|].
  intros Hrun Hle. destruct fuel' as [|fuel']; [lia|]. simpl.
  destruct (slot es i) as [e|]; [|done].
  destruct (negb (occupied e)); [done|].
  destruct (decide (key e = k)); [done|].
  destruct (distance e <? d); apply IH; (done || lia).
Qed.

Lemma get_probe_mono (fuel fuel' : nat) :
  ∀ es msk i k d r,
    get_probe fuel es msk i k d = Some r → (fuel ≤ fuel')%nat →
    get_probe fuel' es msk i k d = Some r.
Proof.
  revert fuel'. induction fuel as [|fuel IH]; intros fuel' es msk i k d r;
    simpl; [done|].
  intros Hrun Hle. destruct fuel' as [|fuel']; [lia|]. simpl.
  destruct (slot es i) as [e|]; [|done].
  destruct (negb (occupied e) || (distance e <? d)); [done|].
  destruct (decide (key e = k)); [done|].
  apply IH; (done || lia).
Qed.

Lemma shift_back_mono (fuel fuel' : nat) :
  ∀ es msk i j r,
    shift_back fuel es msk i j = Some r → (fuel ≤ fuel')%nat →
    shift_back fuel' es msk i j = Some r.
Proof.
  revert fuel'. induction fuel as [|fuel IH]; intros fuel' es msk i j r;
    simpl; [done|].
  intros Hrun Hle. destruct fuel' as [|fuel']; [lia|]. simpl.
  destruct (slot es j) as [ne|]; [|done].
  destruct (slot es i) as [e|]; [|done].
  destruct (negb (occupied ne) || (distance ne =? 0)); [done|].
  apply IH; (done || lia).
Qed.

Lemma remove_probe_mono (fuel fuel' : nat) :
  ∀ es msk i k d r,
    remove_probe fuel es msk i k d = Some r → (fuel ≤ fuel')%nat →
    remove_probe fuel' es msk i k d = Some r.
Proof.
  revert fuel'. induction fuel as [|fuel IH]; intros fuel' es msk i k d r;
    simpl; [done|].
  intros Hrun Hle. destruct fuel' as [|fuel']; [lia|]. simpl.
  destruct (slot es i) as [e|]; [|done].
  destruct (negb (occupied e) || (distance e <? d)); [done|].
  destruct (decide (key e = k)).
  - destruct (shift_back fuel es msk i (Z.land (i + 1) msk)) as [es'|] eqn:Hsh;
      [|done].
    rewrite (shift_back_mono fuel fuel' _ _ _ _ _ Hsh) by lia. done.
  - apply IH; (done || lia).
Qed.

Lemma reinsert_mono (put put' : RobinHoodMap → K → V → option RobinHoodMap) :
  (∀ m k v r, put m k v = Some r → put' m k v = Some r) →
  ∀ old m r, reinsert put old m = Some r → reinsert put' old m = Some r.
Proof.
  intros Hput old. induction old as [|e old IH]; intros m r; simpl; [done|].
  destruct (occupied e); [|apply IH].
  destruct (put m (key e) (value e)) as [m'|] eqn:Hm'; [|done].
  rewrite (Hput _ _ _ _ Hm'). apply IH.
Qed.

Lemma Put_unfold (fuel : nat) (m : RobinHoodMap) (k : K) (v : V) :
  Put (S fuel) m k v
  = match (if over_load (size m) (len (entries m))
           then resize_with (Put fuel) m else Some m) with
    | None => None
    | Some m1 =>
      match put_probe (S fuel) (entries m1) (mask m1)
              (Z.land (hash k) (mask m1)) k v 0 with
      | None => None
      | Some (es, fresh) =>
        Some {| entries := es;
                size := if fresh then size m1 + 1 else size m1;
                mask := mask m1 |}
      end
    end.
Proof. reflexivity. Qed.

Lemma Put_mono (fuel fuel' : nat) :
  ∀ m k v r,
    Put fuel m k v = Some r → (fuel ≤ fuel')%nat → Put fuel' m k v = Some r.
Proof.
  revert fuel'. induction fuel as [|fuel IH]; intros fuel' m k v r;
    [done|].
  intros Hrun Hle. destruct fuel' as [|fuel']; [lia|].
  rewrite Put_unfold in *.
  destruct (if over_load (size m) (len (entries m))
            then resize_with (Put fuel) m else Some m) as [m1|] eqn:Hm1;
    [|done].
  assert (Hm1' : (if over_load (size m) (len (entries m))
                  then resize_with (Put fuel') m else Some m) = Some m1).
  { destruct (over_load _ _); [|done]. unfold resize_with in *.
    apply (reinsert_mono (Put fuel)); [|done].
    intros m0 k0 v0 r0 H0. apply (IH fuel' _ _ _ _ H0). lia. }
  rewrite Hm1'.
  destruct (put_probe (S fuel) _ _ _ _ _ _) as [[es fresh]|] eqn:Hp; [|done].
  rewrite (put_probe_mono (S fuel) (S fuel') _ _ _ _ _ _ _ Hp) by lia. done.
Qed.

Lemma Get_mono (fuel fuel' : nat) (m : RobinHoodMap) (k : K) r :
  Get fuel m k = Some r → (fuel ≤ fuel')%nat → Get fuel' m k = Some r.
Proof.
  unfold Get. intros Hrun Hle.
  destruct (get_probe fuel _ _ _ _ _) as [x|] eqn:Hp; [|done].
  by rewrite (get_probe_mono fuel fuel' _ _ _ _ _ _ Hp).
Qed.

Lemma Remove_mono (fuel fuel' : nat) (m : RobinHoodMap) (k : K) r :
  Remove fuel m k = Some r → (fuel ≤ fuel')%nat → Remove fuel' m k = Some r.
Proof.
  unfold Remove. intros Hrun Hle.
  destruct (remove_probe fuel _ _ _ _ _) as [x|] eqn:Hp; [|done].
  by rewrite (remove_probe_mono fuel fuel' _ _ _ _ _ _ Hp).
Qed.

(** ** Get, the backward shift and Remove on any table with a vacant slot *)

Lemma get_probe_basic (g : nat) :
  ∀ (es : list entry) (msk i : Z) (k : K) (d : Z) (fuel : nat),
    shape es msk → 0 ≤ i < len es → Z.of_nat g < len es →
    vacant es (pos (len es) i (Z.of_nat g)) → (g < fuel)%nat →
    ∃ r, get_probe fuel es msk i k d = Some r
         ∧ (r.2 = true → holds es k r.1)
         ∧ (r.2 = false → r.1 = zeroV).
Proof.
  induction g as [|g IH]; intros es msk i k d fuel Hs Hi Hg Hvac Hfuel;
    (destruct fuel as [|fuel]; [lia|]); simpl.
  - rewrite pos_0 in Hvac by done. destruct Hvac as (e & He & Hocc).
    rewrite He, Hocc. simpl. by eexists (_, false).
  - destruct (slot_is_Some es i Hi) as (e & He). rewrite He.
    destruct (occupied e) eqn:Hocc; simpl; [|by eexists (_, false)].
    destruct (distance e <? d); [by eexists (_, false)|].
    destruct (decide (key e = k)) as [Hk|Hk].
    { eexists (_, true). split; [done|]. split; [|done].
      intros _. by exists i, e. }
    rewrite (shape_next es) by done.
    apply IH; [done|apply pos_range; lia|lia| |lia].
    rewrite pos_pos. by replace (1 + Z.of_nat g) with (Z.of_nat (S g)) by lia.
Qed.

Lemma shift_back_basic (g : nat) :
  ∀ (es : list entry) (msk i : Z) (ei : entry) (fuel : nat),
    shape es msk → 0 ≤ i < len es → Z.of_nat g + 1 < len es →
    slot es i = Some ei → occupied ei = true →
    vacant es (pos (len es) i (1 + Z.of_nat g)) → (g < fuel)%nat →
    ∃ es', shift_back fuel es msk i (pos (len es) i 1) = Some es'
           ∧ length es' = length es
           ∧ occupancy es' = occupancy es - 1.
Proof.
  induction g as [|g IH]; intros es msk i ei fuel Hs Hi Hg Hei Hocci Hvac Hfuel;
    (destruct fuel as [|fuel]; [lia|]); simpl.
  - destruct Hvac as (ne & Hne & Hocc). change (1 + Z.of_nat 0) with 1 in Hne.
    rewrite Hne, Hei, Hocc. simpl. eexists. split; [done|].
    split; [apply length_store|].
    rewrite (occupancy_store _ _ ei), Hocci by done. simpl. lia.
  - assert (Hn : 0 ≤ pos (len es) i 1 < len es) by (apply pos_range; lia).
    destruct (slot_is_Some es _ Hn) as (ne & Hne). rewrite Hne, Hei.
    destruct (negb (occupied ne) || (distance ne =? 0)) eqn:Hstop.
    { eexists. split; [done|]. split; [apply length_store|].
      rewrite (occupancy_store _ _ ei), Hocci by done. simpl. lia. }
    apply orb_false_iff in Hstop as [Hocc _].
    apply negb_false_iff in Hocc.
    assert (Hni : pos (len es) i 1 ≠ i).
    { rewrite <- (pos_0 (len es) (pos (len es) i 1)) by done.
      apply pos_succ_ne; lia. }
    set (es1 := store es i _).
    rewrite (shape_next es) by done.
    destruct (IH es1 msk (pos (len es) i 1) ne fuel)
      as (es' & Hrun & Hlen & Hocc').
    + by apply shape_store.
    + unfold es1. by rewrite len_store.
    + unfold es1. rewrite len_store. lia.
    + unfold es1. rewrite slot_store_ne; [done|lia|lia|done].
    + done.
    + unfold es1. rewrite len_store, pos_pos.
      apply vacant_store_ne; [lia|apply pos_range; lia| |].
      * intros Heq. rewrite <- (pos_0 (len es) i) in Heq at 1 by done.
        apply pos_inj in Heq; lia.
      * by replace (1 + (1 + Z.of_nat g)) with (1 + Z.of_nat (S g)) by lia.
    + lia.
    + unfold es1 in *. rewrite len_store in Hrun.
      exists es'. split; [done|].
      split; [by rewrite Hlen, length_store|].
      rewrite Hocc', (occupancy_store _ _ ei), Hocci, Hocc by done. simpl. lia.
Qed.

Lemma remove_probe_basic (g : nat) :
  ∀ (es : list entry) (msk i : Z) (k : K) (d : Z) (fuel : nat),
    shape es msk → 0 ≤ i < len es → Z.of_nat g < len es →
    vacant es (pos (len es) i (Z.of_nat g)) → (g < fuel)%nat →
    ∃ found es',
      remove_probe fuel es msk i k d = Some (found, es')
      ∧ length es' = length es
      ∧ occupancy es' = occupancy es - (if found then 1 else 0)
      ∧ (found = false → es' = es)
      ∧ (found = true → present es k).
Proof.
  induction g as [|g IH]; intros es msk i k d fuel Hs Hi Hg Hvac Hfuel;
    (destruct fuel as [|fuel]; [lia|]); simpl.
  - rewrite pos_0 in Hvac by done. destruct Hvac as (e & He & Hocc).
    rewrite He, Hocc. simpl. exists false, es.
    repeat split; (done || lia).
  - destruct (slot_is_Some es i Hi) as (e & He). rewrite He.
    destruct (occupied e) eqn:Hocc; simpl;
      [|exists false, es; repeat split; (done || lia)].
    destruct (distance e <? d);
      [exists false, es; repeat split; (done || lia)|].
    destruct (decide (key e = k)) as [Hk|Hk].
    { rewrite (shape_next es) by done.
      destruct (shift_back_basic g es msk i e fuel)
        as (es' & Hrun & Hlen & Hocc'); [done|done|lia|done|done| |lia|].
      { by replace (1 + Z.of_nat g) with (Z.of_nat (S g)) by lia. }
      rewrite Hrun. exists true, es'.
      repeat split; [done|done|done|]. intros _. by exists i, e. }
    rewrite (shape_next es) by done.
    apply IH; [done|apply pos_range; lia|lia| |lia].
    rewrite pos_pos. by replace (1 + Z.of_nat g) with (Z.of_nat (S g)) by lia.
Qed.

(** ** The bookkeeping invariant *)

Lemma len_make (n : Z) : 0 ≤ n → len (make n) = n.
Proof. intros Hn. unfold len, make. rewrite length_replicate. lia. Qed.

Lemma slot_make (n i : Z) :
  0 ≤ i < n → slot (make n) i = Some (mkEntry zeroK zeroV 0 false).
Proof.
  intros Hi. unfold slot, make. apply lookup_replicate_2. lia.
Qed.

Lemma occupancy_make (n : Z) : occupancy (make n) = 0.
Proof. unfold make. by apply occupancy_replicate. Qed.

Lemma shape_make (n : Z) : 3 ≤ n → shape (make (2 ^ n)) (2 ^ n - 1).
Proof.
  intros Hn. exists n. split; [done|]. split; [|done].
  apply len_make. apply Z.pow_nonneg. lia.
Qed.

Lemma shape_double (es : list entry) (msk : Z) :
  shape es msk → shape (make (len es * 2)) (len es * 2 - 1).
Proof.
  intros (n & Hn & Hlen & _). rewrite Hlen.
  replace (2 ^ n * 2) with (2 ^ (n + 1)) by (rewrite Z.pow_add_r; lia).
  apply shape_make. lia.
Qed.

Lemma ok_new : ok NewRobinHoodMap.
Proof.
  split; [|split].
  - apply (shape_make 3). lia.
  - unfold NewRobinHoodMap. cbn [entries size]. by rewrite occupancy_make.
  - unfold NewRobinHoodMap. cbn [entries size]. rewrite len_make; lia.
Qed.

Lemma ok_clear (m : RobinHoodMap) : ok (Clear m).
Proof. apply ok_new. Qed.

(** From any slot of a table that is not full, a vacant slot is met after
    fewer than [len] probing steps. *)
Lemma vacant_ahead (es : list entry) (msk i : Z) :
  shape es msk → occupancy es < len es → 0 ≤ i < len es →
  ∃ g : nat, Z.of_nat g < len es ∧ vacant es (pos (len es) i (Z.of_nat g)).
Proof.
  intros Hs Hroom Hi.
  destruct (occupancy_vacant es Hroom) as (e0 & He0 & Hvac).
  destruct (pos_surj (len es) i e0 He0) as (j & Hj & Hpos).
  exists (Z.to_nat j). rewrite Z2Nat.id by lia. rewrite Hpos. split; [lia|done].
Qed.

Lemma home_range (es : list entry) (msk : Z) (k : K) :
  shape es msk → 0 ≤ Z.land (hash k) msk < len es.
Proof.
  intros Hs. rewrite (shape_land es) by done.
  apply Z.mod_pos_bound. pose proof (shape_len es msk Hs). lia.
Qed.

Lemma Put_place (fuel : nat) (m : RobinHoodMap) (k : K) (v : V) :
  Put (S fuel) m k v
  = match (if over_load (size m) (len (entries m))
           then resize_with (Put fuel) m else Some m) with
    | None => None
    | Some m1 => place (S fuel) m1 k v
    end.
Proof. reflexivity. Qed.

Lemma over_load_false (sz n : Z) : over_load sz n = false ↔ 4 * (sz + 1) ≤ 3 * n.
Proof. unfold over_load. rewrite Z.ltb_ge. done. Qed.

Lemma over_load_true (sz n : Z) : over_load sz n = true ↔ 3 * n < 4 * (sz + 1).
Proof. unfold over_load. rewrite Z.ltb_lt. done. Qed.

Lemma place_ok (fuel : nat) (m : RobinHoodMap) (k : K) (v : V) :
  shape (entries m) (mask m) → size m = occupancy (entries m) →
  4 * (size m + 1) ≤ 3 * len (entries m) →
  (length (entries m) ≤ fuel)%nat →
  ∃ m', place fuel m k v = Some m' ∧ ok m'
        ∧ holds (entries m') k v
        ∧ length (entries m') = length (entries m)
        ∧ mask m' = mask m
        ∧ size m ≤ size m' ≤ size m + 1.
Proof.
  intros Hs Hsz Hload Hfuel.
  pose proof (shape_len _ _ Hs) as H8.
  pose proof (home_range _ _ k Hs) as Hh.
  destruct (vacant_ahead (entries m) (mask m) _ Hs ltac:(lia) Hh)
    as (g & Hg & Hvac).
  destruct (put_probe_basic g (entries m) (mask m) _ k v 0 fuel Hs Hh Hg Hvac)
    as (es' & fresh & Hrun & Hlen & Hocc & Hholds & _).
  { unfold len in Hg. lia. }
  unfold place. rewrite Hrun. eexists. split; [done|].
  assert (Hlen' : len es' = len (entries m)) by (unfold len; by rewrite Hlen).
  split; [|simpl; repeat split; (done || destruct fresh; lia)].
  split; [|split]; simpl.
  - by apply (shape_same_length (entries m)).
  - rewrite Hocc. destruct fresh; lia.
  - rewrite Hlen'. destruct fresh; lia.
Qed.

Lemma reinsert_ok (fuel : nat) (old : list entry) :
  ∀ acc : RobinHoodMap,
    shape (entries acc) (mask acc) → size acc = occupancy (entries acc) →
    4 * (size acc + occupancy old) ≤ 3 * len (entries acc) →
    (length (entries acc) ≤ fuel)%nat →
    ∃ m', reinsert (Put fuel) old acc = Some m' ∧ ok m'
          ∧ length (entries m') = length (entries acc)
          ∧ mask m' = mask acc
          ∧ size m' ≤ size acc + occupancy old.
Proof.
  induction old as [|e old IH]; intros acc Hs Hsz Hload Hfuel; simpl in *.
  - exists acc. split; [done|]. split; [|split; [done|split; [done|lia]]].
    split; [done|]. split; [done|]. lia.
  - pose proof (occupancy_le old) as Hold.
    pose proof (shape_len _ _ Hs) as H8. unfold len in H8.
    destruct (occupied e).
    + destruct fuel as [|fuel]; [lia|]. rewrite Put_place.
      replace (over_load (size acc) (len (entries acc))) with false
        by (symmetry; apply over_load_false; lia).
      destruct (place_ok (S fuel) acc (key e) (value e))
        as (m1 & Hrun & (Hs1 & Hsz1 & _) & _ & Hlen1 & Hmask1 & Hsize1);
        [done|done|lia|lia|].
      rewrite Hrun.
      assert (Hlen1' : len (entries m1) = len (entries acc))
        by (unfold len; by rewrite Hlen1).
      destruct (IH m1) as (m' & Hrun' & Hok' & Hlen' & Hmask' & Hsize');
        [done|done|rewrite Hlen1'; lia|rewrite Hlen1; lia|].
      exists m'. split; [done|]. split; [done|].
      split; [congruence|]. split; [congruence|]. lia.
    + destruct (IH acc) as (m' & Hrun' & Hok' & Hlen' & Hmask' & Hsize');
        [done|done|lia|done|].
      exists m'. do 4 (split; [done|]). lia.
Qed.

Lemma Put_ok (fuel : nat) (m : RobinHoodMap) (k : K) (v : V) :
  ok m → (2 * length (entries m) < fuel)%nat →
  ∃ m', Put fuel m k v = Some m' ∧ ok m' ∧ holds (entries m') k v
        ∧ (len (entries m') = len (entries m)
           ∨ len (entries m') = 2 * len (entries m)).
Proof.
  intros (Hs & Hsz & Hload) Hfuel.
  pose proof (shape_len _ _ Hs) as H8.
  destruct fuel as [|fuel]; [lia|]. rewrite Put_place.
  destruct (over_load (size m) (len (entries m))) eqn:Hover.
  - unfold resize_with.
    pose proof (occupancy_le (entries m)) as Hle.
    set (m0 := {| entries := make (len (entries m) * 2); size := 0;
                  mask := len (entries m) * 2 - 1 |}).
    assert (Hlen0 : len (entries m0) = len (entries m) * 2)
      by (apply len_make; lia).
    destruct (reinsert_ok fuel (entries m) m0)
      as (m1 & Hrun & (Hs1 & Hsz1 & _) & Hlen1 & Hmask1 & Hsize1).
    + by apply (shape_double _ (mask m)).
    + simpl. by rewrite occupancy_make.
    + rewrite Hlen0. simpl. lia.
    + unfold len in Hlen0. lia.
    + rewrite Hrun.
      assert (Hlen1' : len (entries m1) = len (entries m) * 2)
        by (rewrite <- Hlen0; unfold len; by rewrite Hlen1).
      simpl in Hsize1.
      destruct (place_ok (S fuel) m1 k v)
        as (m' & Hrun' & Hok' & Hholds & Hlen' & _);
        [done|done|lia|unfold len in *; lia|].
      exists m'. repeat (split; [done|]). right. unfold len in *. lia.
  - apply over_load_false in Hover.
    destruct (place_ok (S fuel) m k v)
      as (m' & Hrun' & Hok' & Hholds & Hlen' & _); [done|done|done|lia|].
    exists m'. repeat (split; [done|]). left. unfold len. by rewrite Hlen'.
Qed.

Lemma ok_room (m : RobinHoodMap) : ok m → occupancy (entries m) < len (entries m).
Proof.
  intros (Hs & Hsz & Hload). pose proof (shape_len _ _ Hs). lia.
Qed.

Lemma Get_ok (fuel : nat) (m : RobinHoodMap) (k : K) :
  ok m → (length (entries m) ≤ fuel)%nat →
  ∃ r, Get fuel m k = Some (r, m)
       ∧ (r.2 = true → holds (entries m) k r.1)
       ∧ (r.2 = false → r.1 = zeroV).
Proof.
  intros Hok Hfuel. pose proof Hok as (Hs & _).
  pose proof (home_range _ _ k Hs) as Hh.
  destruct (vacant_ahead (entries m) (mask m) _ Hs (ok_room m Hok) Hh)
    as (g & Hg & Hvac).
  destruct (get_probe_basic g (entries m) (mask m) _ k 0 fuel Hs Hh Hg Hvac)
    as (r & Hrun & Hr); [unfold len in Hg; lia|].
  exists r. unfold Get. by rewrite Hrun.
Qed.

Lemma Remove_ok (fuel : nat) (m : RobinHoodMap) (k : K) :
  ok m → (length (entries m) ≤ fuel)%nat →
  ∃ found m', Remove fuel m k = Some (found, m') ∧ ok m'
              ∧ length (entries m') = length (entries m)
              ∧ mask m' = mask m
              ∧ size m' = size m - (if found then 1 else 0)
              ∧ (found = false → m' = m)
              ∧ (found = true → present (entries m) k).
Proof.
  intros Hok Hfuel. pose proof Hok as (Hs & Hsz & Hload).
  pose proof (home_range _ _ k Hs) as Hh.
  destruct (vacant_ahead (entries m) (mask m) _ Hs (ok_room m Hok) Hh)
    as (g & Hg & Hvac).
  destruct (remove_probe_basic g (entries m) (mask m) _ k 0 fuel Hs Hh Hg Hvac)
    as (found & es' & Hrun & Hlen & Hocc & Hsame & Hpres);
    [unfold len in Hg; lia|].
  unfold Remove. rewrite Hrun. eexists _, _. split; [done|].
  assert (Hlen' : len es' = len (entries m)) by (unfold len; by rewrite Hlen).
  split; [|simpl; repeat split; try done].
  - split; [|split]; simpl.
    + by apply (shape_same_length (entries m)).
    + rewrite Hocc. destruct found; lia.
    + rewrite Hlen'. destruct found; lia.
  - destruct found; lia.
  - intros ->. rewrite Hsame by done. by destruct m.
Qed.

Lemma reachable_ok (m : RobinHoodMap) : reachable m → ok m.
Proof.
  induction 1 as [|m fuel k v m' _ IH Hrun|m fuel k r m' _ IH Hrun
                  |m fuel k b m' _ IH Hrun|m _ IH|m _ IH].
  - apply ok_new.
  - destruct (Put_ok (max fuel (2 * length (entries m) + 1)) m k v IH)
      as (m2 & Hrun2 & Hok2 & _); [lia|].
    rewrite (Put_mono fuel _ _ _ _ _ Hrun) in Hrun2 by lia. congruence.
  - destruct (Get_ok (max fuel (length (entries m))) m k IH)
      as (r2 & Hrun2 & _); [lia|].
    rewrite (Get_mono fuel _ _ _ _ Hrun) in Hrun2 by lia. congruence.
  - destruct (Remove_ok (max fuel (length (entries m))) m k IH)
      as (b2 & m2 & Hrun2 & Hok2 & _); [lia|].
    rewrite (Remove_mono fuel _ _ _ _ Hrun) in Hrun2 by lia. congruence.
  - done.
  - apply ok_clear.
Qed.

(** ** The Robin Hood invariant: searching *)

Lemma home_pos (es : list entry) (msk : Z) (k : K) :
  shape es msk → pos (len es) (home msk k) 0 = home msk k.
Proof. intros Hs. apply pos_0. by apply home_range. Qed.

(** No key is stored twice. *)
Lemma robin_unique (es : list entry) (msk p q : Z) (e e' : entry) :
  shape es msk → robin es msk →
  0 ≤ p < len es → slot es p = Some e → occupied e = true →
  0 ≤ q < len es → slot es q = Some e' → occupied e' = true →
  key e = key e' → p = q.
Proof.
  intros Hs Hr Hp He Hocc Hq He' Hocc' Hkey.
  destruct (Hr p e Hp He Hocc) as (d & Hd & -> & _ & Hprobe).
  destruct (Hr q e' Hq He' Hocc') as (d' & Hd' & -> & _ & Hprobe').
  rewrite Hkey in *.
  destruct (Z.lt_trichotomy d d') as [Hlt|[->|Hlt]]; [|done|].
  - destruct (Hprobe' d) as (x & Hx & _ & _ & Hne); [lia|].
    rewrite He in Hx. injection Hx as <-. by rewrite Hkey in Hne.
  - destruct (Hprobe d') as (x & Hx & _ & _ & Hne); [lia|].
    rewrite He' in Hx. by injection Hx as <-.
Qed.

(** A probe sequence that has met only occupied slots so far has not gone
    round the table, as long as some slot is vacant. *)
Lemma probe_next_lt (es : list entry) (msk : Z) (k : K) (d : Z) (e : entry) :
  shape es msk → (∃ e0, 0 ≤ e0 < len es ∧ vacant es e0) →
  0 ≤ d < len es → probe_ok es msk k d →
  slot es (pos (len es) (home msk k) d) = Some e → occupied e = true →
  d + 1 < len es.
Proof.
  intros Hs (e0 & He0 & x & Hx & Hvac) Hd Hprobe He Hocc.
  destruct (pos_surj (len es) (home msk k) e0 He0) as (j & Hj & Hpos).
  enough (d < j) by lia.
  destruct (Z.lt_trichotomy j d) as [Hlt|[->|Hlt]]; [| |done].
  - destruct (Hprobe j) as (y & Hy & Hoy & _); [lia|].
    rewrite Hpos, Hx in Hy. injection Hy as <-. congruence.
  - rewrite Hpos, Hx in He. injection He as <-. congruence.
Qed.

(** A search finds every stored key. *)
Lemma get_probe_found (n : nat) :
  ∀ (es : list entry) (msk : Z) (k : K) (d j : Z) (e : entry) (fuel : nat),
    shape es msk → 0 ≤ j → j + Z.of_nat n = d →
    probe_ok es msk k d →
    slot es (pos (len es) (home msk k) d) = Some e →
    occupied e = true → key e = k → distance e = wrap8 d →
    (n < fuel)%nat →
    get_probe fuel es msk (pos (len es) (home msk k) j) k (wrap8 j)
    = Some (value e, true).
Proof.
  induction n as [|n IH];
    intros es msk k d j e fuel Hs Hj Hjd Hprobe He Hocc Hkey Hdist Hfuel;
    (destruct fuel as [|fuel]; [lia|]); simpl.
  - replace j with d by lia. rewrite He, Hocc, Hdist, Z.ltb_irrefl. simpl.
    by rewrite decide_True.
  - destruct (Hprobe j) as (x & Hx & Hox & Hdx & Hkx); [lia|].
    rewrite Hx, Hox. simpl.
    replace (distance x <? wrap8 j) with false by (symmetry; apply Z.ltb_ge; lia).
    rewrite decide_False by done.
    rewrite (shape_next es), pos_pos, wrap8_succ by done.
    apply (IH es msk k d (j + 1) e); (done || lia).
Qed.

Lemma Get_found (fuel : nat) (m : RobinHoodMap) (p : Z) (e : entry) :
  shape (entries m) (mask m) → robin (entries m) (mask m) →
  0 ≤ p < len (entries m) → slot (entries m) p = Some e → occupied e = true →
  (length (entries m) ≤ fuel)%nat →
  Get fuel m (key e) = Some (value e, true, m).
Proof.
  intros Hs Hr Hp He Hocc Hfuel.
  destruct (Hr p e Hp He Hocc) as (d & Hd & -> & Hdist & Hprobe).
  unfold Get. fold (home (mask m) (key e)).
  rewrite <- (home_pos (entries m)) by done.
  change 0 with (wrap8 0) at 2.
  rewrite (get_probe_found (Z.to_nat d) (entries m) (mask m) (key e) d 0 e);
    (done || unfold len in *; lia).
Qed.

(** ** The Robin Hood invariant: writing a slot *)

Lemma probe_ok_store (es : list entry) (msk : Z) (k : K) (d i : Z) (x : entry) :
  0 ≤ i < len es → probe_ok es msk k d →
  (∀ j, 0 ≤ j < d → pos (len es) (home msk k) j = i →
        occupied x = true ∧ wrap8 j ≤ distance x ∧ key x ≠ k) →
  probe_ok (store es i x) msk k d.
Proof.
  intros Hi Hprobe Hx j Hj. rewrite len_store.
  destruct (decide (pos (len es) (home msk k) j = i)) as [Heq|Hne].
  - rewrite Heq, slot_store_eq by done. exists x. split; [done|]. by apply Hx.
  - destruct (Hprobe j Hj) as (e & He & Hrest).
    exists e. split; [|done].
    rewrite slot_store_ne; [done|lia| |done].
    pose proof (pos_range (len es) (home msk k) j). lia.
Qed.

Lemma robin_store (es : list entry) (msk i : Z) (x : entry) :
  shape es msk → robin es msk → 0 ≤ i < len es →
  (occupied x = true → placed es msk i x) →
  (∀ e0, slot es i = Some e0 → occupied e0 = true →
         occupied x = true ∧ distance e0 ≤ distance x) →
  (occupied x = true →
   ∀ q eq, 0 ≤ q < len es → q ≠ i → slot es q = Some eq →
           occupied eq = true → key eq ≠ key x) →
  robin (store es i x) msk.
Proof.
  intros Hs Hr Hi Hplaced Hold Hfresh q eq Hq Hslot Hocc.
  rewrite len_store in Hq.
  destruct (decide (q = i)) as [->|Hne].
  - rewrite slot_store_eq in Hslot by done. injection Hslot as <-.
    destruct (Hplaced Hocc) as (d & Hd & Hp & Hdist & Hprobe).
    exists d. rewrite len_store. repeat (split; [done|]).
    apply probe_ok_store; [done|done|].
    intros j Hj Hji. rewrite Hp in Hji. apply pos_inj in Hji; lia.
  - rewrite slot_store_ne in Hslot by lia.
    destruct (Hr q eq Hq Hslot Hocc) as (d & Hd & Hp & Hdist & Hprobe).
    exists d. rewrite len_store. repeat (split; [done|]).
    apply probe_ok_store; [done|done|].
    intros j Hj Hji.
    destruct (Hprobe j Hj) as (e0 & He0 & Hocc0 & Hdist0 & Hkey0).
    rewrite Hji in He0.
    destruct (Hold e0 He0 Hocc0) as [Hox Hdx].
    split; [done|]. split; [lia|].
    intros Heq. by apply (Hfresh Hox q eq).
Qed.

(** ** The abstract view under a slot write *)

Lemma holds_split (es : list entry) (i : Z) (e0 : entry) (k : K) (v : V) :
  0 ≤ i < len es → slot es i = Some e0 →
  holds es k v
  ↔ (occupied e0 = true ∧ key e0 = k ∧ value e0 = v) ∨ holds_except es i k v.
Proof.
  intros Hi He0. split.
  - intros (q & e & Hq & He & Hrest).
    destruct (decide (q = i)) as [->|Hne].
    + left. rewrite He0 in He. by injection He as <-.
    + right. by exists q, e.
  - intros [Hhere|(q & e & Hq & _ & Hrest)].
    + by exists i, e0.
    + by exists q, e.
Qed.

Lemma holds_except_store (es : list entry) (i : Z) (x : entry) (k : K) (v : V) :
  0 ≤ i → holds_except (store es i x) i k v ↔ holds_except es i k v.
Proof.
  intros Hi. unfold holds_except. rewrite len_store.
  split; intros (q & e & Hq & Hne & He & Hrest); exists q, e.
  - rewrite slot_store_ne in He by lia. done.
  - rewrite slot_store_ne by lia. done.
Qed.

Lemma holds_store (es : list entry) (i : Z) (x : entry) (k : K) (v : V) :
  0 ≤ i < len es →
  holds (store es i x) k v
  ↔ (occupied x = true ∧ key x = k ∧ value x = v) ∨ holds_except es i k v.
Proof.
  intros Hi.
  rewrite (holds_split (store es i x) i x), holds_except_store;
    [done|lia|by rewrite len_store|by apply slot_store_eq].
Qed.

Lemma holds_present (es : list entry) (k : K) (v : V) :
  holds es k v → present es k.
Proof. intros (p & e & Hp & He & Hocc & Hk & _). by exists p, e. Qed.

Lemma present_holds (es : list entry) (k : K) :
  present es k → ∃ v, holds es k v.
Proof. intros (p & e & Hp & He & Hocc & Hk). exists (value e). by exists p, e. Qed.

(** ** The Robin Hood invariant: Put *)

(** [Put] on a stored key walks to its slot and overwrites the value. *)
Lemma put_probe_update (n : nat) :
  ∀ (es : list entry) (msk : Z) (k : K) (v : V) (d j : Z) (e : entry)
    (fuel : nat),
    shape es msk → 0 ≤ j → j + Z.of_nat n = d →
    probe_ok es msk k d →
    slot es (pos (len es) (home msk k) d) = Some e →
    occupied e = true → key e = k →
    (n < fuel)%nat →
    put_probe fuel es msk (pos (len es) (home msk k) j) k v (wrap8 j)
    = Some (store es (pos (len es) (home msk k) d)
              (mkEntry (key e) v (distance e) (occupied e)), false).
Proof.
  induction n as [|n IH];
    intros es msk k v d j e fuel Hs Hj Hjd Hprobe He Hocc Hkey Hfuel;
    (destruct fuel as [|fuel]; [lia|]); simpl.
  - replace j with d by lia. rewrite He, Hocc. simpl.
    by rewrite decide_True.
  - destruct (Hprobe j) as (x & Hx & Hox & Hdx & Hkx); [lia|].
    rewrite Hx, Hox. simpl. rewrite decide_False by done.
    replace (distance x <? wrap8 j) with false by (symmetry; apply Z.ltb_ge; lia).
    rewrite (shape_next es), pos_pos, wrap8_succ by done.
    apply (IH es msk k v d (j + 1) e); (done || lia).
Qed.

(** [Put] of a key that is not stored keeps the invariant and adds exactly
    the new pair.  The statement covers the whole loop: [ck], [cv] and [d]
    are the candidate carried by the loop and the number of steps it has
    made from its home bucket. *)
Lemma put_probe_insert (fuel : nat) :
  ∀ (es : list entry) (msk i : Z) (ck : K) (cv : V) (d : Z)
    (es' : list entry) (fresh : bool),
    shape es msk → robin es msk →
    (∃ e0, 0 ≤ e0 < len es ∧ vacant es e0) →
    ¬ present es ck →
    0 ≤ d < len es → i = pos (len es) (home msk ck) d →
    probe_ok es msk ck d →
    put_probe fuel es msk i ck cv (wrap8 d) = Some (es', fresh) →
    fresh = true ∧ robin es' msk
    ∧ (∀ k v, holds es' k v ↔ (k = ck ∧ v = cv) ∨ holds es k v).
Proof.
  induction fuel as [|fuel IH];
    intros es msk i ck cv d es' fresh Hs Hr Hvac Habs Hd Hi Hprobe Hrun;
    simpl in Hrun; [done|].
  pose proof (shape_len _ _ Hs) as H8.
  assert (Hir : 0 ≤ i < len es) by (rewrite Hi; apply pos_range; lia).
  destruct (slot_is_Some es i Hir) as (e & He). rewrite He in Hrun.
  destruct (occupied e) eqn:Hocc; simpl in Hrun.
  2:{ (* vacant slot: the candidate is stored here *)
      injection Hrun as <- <-. split; [done|]. split.
      - apply robin_store; [done|done|done| | |].
        + intros _. by exists d.
        + intros e0 He0 Hocc0. congruence.
        + intros _ q eq Hq Hne Heq Hoq Hk. apply Habs. by exists q, eq.
      - intros k v. rewrite holds_store by done.
        rewrite (holds_split es i e) by done. simpl. rewrite Hocc.
        intuition congruence. }
  destruct (decide (key e = ck)) as [Hk|Hk].
  { exfalso. apply Habs. by exists i, e. }
  rewrite (shape_next es) in Hrun by done.
  assert (Hd1 : d + 1 < len es).
  { apply (probe_next_lt es msk ck d e); try done. by rewrite <- Hi. }
  destruct (distance e <? wrap8 d) eqn:Hcmp.
  - (* swap: the candidate takes the slot, the resident moves on *)
    apply Z.ltb_lt in Hcmp.
    destruct (Hr i e Hir He Hocc) as (de & Hde & Hie & Hdiste & Hprobee).
    set (c := mkEntry ck cv (wrap8 d) true) in *.
    assert (Hr1 : robin (store es i c) msk).
    { apply robin_store; [done|done|done| | |].
      - intros _. by exists d.
      - intros e0 He0 _. rewrite He in He0. injection He0 as <-.
        split; [done|]. simpl. lia.
      - intros _ q eq Hq Hne Heq Hoq Hkq. apply Habs. by exists q, eq. }
    assert (Hvac1 : ∃ e0, 0 ≤ e0 < len (store es i c) ∧ vacant (store es i c) e0).
    { destruct Hvac as (e0 & He0 & Hv). exists e0. rewrite len_store.
      split; [done|]. apply vacant_store_ne; [lia|lia| |done].
      intros <-. destruct Hv as (x & Hx & Hvx). congruence. }
    assert (Hprobe1 : probe_ok (store es i c) msk (key e) (de + 1)).
    { intros j Hj. rewrite len_store.
      destruct (decide (j = de)) as [->|Hjne].
      - rewrite <- Hie, slot_store_eq by done. exists c. simpl.
        repeat split; [lia|done].
      - destruct (Hprobee j) as (x & Hx & Hrest); [lia|].
        exists x. split; [|done].
        rewrite slot_store_ne; [done|lia|apply pos_range; lia|].
        rewrite Hie. intros Heq. apply pos_inj in Heq; lia. }
    assert (Hde1 : de + 1 < len es).
    { apply (probe_next_lt es msk (key e) de e); try done. by rewrite <- Hie. }
    destruct (IH (store es i c) msk (pos (len es) i 1) (key e) (value e)
                (de + 1) es' fresh) as (Hfresh & Hr' & Hholds).
    + by apply shape_store.
    + done.
    + done.
    + intros (q & eq & Hq & Heq & Hoq & Hkq). rewrite len_store in Hq.
      destruct (decide (q = i)) as [->|Hne].
      * rewrite slot_store_eq in Heq by done. injection Heq as <-.
        simpl in Hkq. congruence.
      * rewrite slot_store_ne in Heq by lia.
        apply Hne. by apply (robin_unique es msk q i eq e).
    + rewrite len_store. lia.
    + rewrite len_store, Hie, pos_pos. done.
    + done.
    + rewrite <- wrap8_succ, <- Hdiste. done.
    + split; [done|]. split; [done|].
      intros k v. rewrite Hholds, holds_store by done.
      rewrite (holds_split es i e) by done. simpl.
      intuition congruence.
  - (* no swap: the candidate moves on *)
    apply Z.ltb_ge in Hcmp.
    apply (IH es msk (pos (len es) i 1) ck cv (d + 1) es' fresh);
      try done.
    + lia.
    + by rewrite Hi, pos_pos.
    + intros j Hj. destruct (decide (j = d)) as [->|Hjne].
      * rewrite <- Hi. exists e. repeat split; (done || lia).
      * apply Hprobe. lia.
    + by rewrite <- wrap8_succ.
Qed.

(** ** Membership in the slot array *)

Lemma slot_elem (es : list entry) (e : entry) :
  e ∈ es ↔ ∃ p, 0 ≤ p < len es ∧ slot es p = Some e.
Proof.
  unfold slot, len. rewrite list_elem_of_lookup. split.
  - intros (n & Hn). exists (Z.of_nat n).
    pose proof (lookup_lt_Some _ _ _ Hn). rewrite Nat2Z.id. split; [lia|done].
  - intros (p & _ & Hp). eauto.
Qed.

Lemma holds_elem (es : list entry) (k : K) (v : V) :
  holds es k v
  ↔ ∃ e, e ∈ es ∧ occupied e = true ∧ key e = k ∧ value e = v.
Proof.
  split.
  - intros (p & e & Hp & He & Hrest). exists e. split; [|done].
    apply slot_elem. eauto.
  - intros (e & He & Hrest). apply slot_elem in He as (p & Hp & He).
    by exists p, e.
Qed.

Lemma present_elem (es : list entry) (k : K) :
  present es k ↔ Exists (λ e, occupied e = true ∧ key e = k) es.
Proof.
  rewrite list.Exists_exists. split.
  - intros (p & e & Hp & He & Hrest). exists e. split; [|done].
    apply slot_elem. eauto.
  - intros (e & He & Hrest). apply slot_elem in He as (p & Hp & He).
    by exists p, e.
Qed.

Lemma present_dec (es : list entry) (k : K) : present es k ∨ ¬ present es k.
Proof.
  rewrite present_elem.
  destruct (decide (Exists (λ e, occupied e = true ∧ key e = k) es)); tauto.
Qed.

Lemma robin_unique_app (src : list entry) (msk : Z) (pre old : list entry)
    (e e' : entry) :
  shape src msk → robin src msk → src = pre ++ e :: old →
  e' ∈ pre → occupied e' = true → occupied e = true → key e' ≠ key e.
Proof.
  intros Hs Hr Hsrc Hin Hocc' Hocc Hkey.
  apply list_elem_of_lookup in Hin as (n & Hn).
  pose proof (lookup_lt_Some _ _ _ Hn) as Hlt.
  assert (Hn' : src !! n = Some e') by (rewrite Hsrc, lookup_app_l; done).
  assert (He : src !! length pre = Some e)
    by (rewrite Hsrc; apply list_lookup_middle; done).
  pose proof (lookup_lt_Some _ _ _ He) as Hlt'.
  enough (Z.of_nat n = Z.of_nat (length pre)) by lia.
  apply (robin_unique src msk _ _ e' e); unfold slot, len;
    rewrite ?Nat2Z.id; (done || lia).
Qed.

(** ** The Robin Hood invariant: Put without and with resize *)

Lemma place_robin (fuel : nat) (m : RobinHoodMap) (k : K) (v : V) :
  shape (entries m) (mask m) → robin (entries m) (mask m) →
  size m = occupancy (entries m) →
  4 * (size m + 1) ≤ 3 * len (entries m) →
  (length (entries m) ≤ fuel)%nat →
  ∃ m', place fuel m k v = Some m' ∧ ok m'
        ∧ robin (entries m') (mask m')
        ∧ length (entries m') = length (entries m)
        ∧ mask m' = mask m
        ∧ (∀ k' v', holds (entries m') k' v'
                    ↔ (k' = k ∧ v' = v) ∨ (k' ≠ k ∧ holds (entries m) k' v'))
        ∧ (present (entries m) k →
           ∃ p e, 0 ≤ p < len (entries m) ∧ slot (entries m) p = Some e
                  ∧ occupied e = true ∧ key e = k
                  ∧ m' = {| entries := store (entries m) p
                                         (mkEntry (key e) v (distance e)
                                                  (occupied e));
                            size := size m; mask := mask m |})
        ∧ (¬ present (entries m) k → size m' = size m + 1).
Proof.
  intros Hs Hr Hsz Hload Hfuel.
  pose proof (shape_len _ _ Hs) as H8.
  destruct (place_ok fuel m k v Hs Hsz Hload Hfuel)
    as (m' & Hrun & Hok' & _ & Hlen' & Hmask' & _).
  exists m'. split; [done|]. split; [done|].
  unfold place in Hrun. fold (home (mask m) k) in Hrun.
  rewrite <- (home_pos (entries m)) in Hrun by done.
  change 0 with (wrap8 0) in Hrun at 2.
  destruct (present_dec (entries m) k) as [Hpres|Habs].
  - destruct Hpres as (p & e & Hp & He & Hocc & Hk).
    destruct (Hr p e Hp He Hocc) as (d & Hd & Hpd & Hdist & Hprobe).
    rewrite Hk in *.
    rewrite (put_probe_update (Z.to_nat d) (entries m) (mask m) k v d 0 e)
      in Hrun; [|done|lia|lia|done|by rewrite <- Hpd|done|done
                |unfold len in *; lia].
    rewrite <- Hpd in Hrun. injection Hrun as <-. simpl.
    split; [|split; [done|split; [done|split; [|split]]]].
    + apply robin_store; [done|done|done| | |].
      * intros _. exists d. simpl. by rewrite Hk.
      * intros e0 He0 _. rewrite He in He0. injection He0 as <-. simpl.
        split; [done|lia].
      * intros _ q eq Hq Hne Heq Hoq Hkq. simpl in Hkq. apply Hne.
        apply (robin_unique (entries m) (mask m) q p eq e); (done || congruence).
    + intros k' v'. rewrite holds_store by done. simpl.
      split.
      * intros [(_ & <- & <-)|(q & eq & Hq & Hne & Heq & Hoq & Hkq & Hvq)];
          [by left|right].
        split; [|by exists q, eq].
        intros ->. apply Hne.
        apply (robin_unique (entries m) (mask m) q p eq e); (done || congruence).
      * intros [(-> & ->)|(Hne & q & eq & Hq & Heq & Hoq & Hkq & Hvq)];
          [left; by rewrite Hocc|right].
        exists q, eq. repeat (split; [done|]). split; [|done].
        intros ->. congruence.
    + intros _. exists p, e. by rewrite Hk.
    + intros Habs. exfalso. apply Habs. by exists p, e.
  - destruct (put_probe _ _ _ _ _ _ _) as [[es' fresh]|] eqn:Hp; [|done].
    injection Hrun as <-. simpl in *.
    destruct (put_probe_insert fuel (entries m) (mask m)
                (pos (len (entries m)) (home (mask m) k) 0) k v 0 es' fresh)
      as (-> & Hr' & Hholds); [done|done| |done|lia|done|intros j Hj; lia|done|].
    { apply occupancy_vacant. lia. }
    split; [done|]. split; [done|]. split; [done|]. split; [|split; [done|done]].
    intros k' v'. rewrite Hholds. split.
    + intros [H|H]; [by left|right]. split; [|done].
      intros ->. apply Habs. by apply (holds_present _ _ v').
    + intros [H|[_ H]]; [by left|by right].
Qed.

Lemma robin_make (n msk : Z) : robin (make n) msk.
Proof.
  intros p e Hp He Hocc. unfold slot, make in He.
  apply lookup_replicate in He as [-> _]. done.
Qed.

Lemma holds_make (n : Z) (k : K) (v : V) : ¬ holds (make n) k v.
Proof.
  intros (p & e & Hp & He & Hocc & _). unfold slot, make in He.
  apply lookup_replicate in He as [-> _]. done.
Qed.

Lemma reinsert_robin (fuel : nat) (src : list entry) (srcmsk : Z) :
  shape src srcmsk → robin src srcmsk →
  ∀ (old pre : list entry) (acc : RobinHoodMap),
    src = pre ++ old →
    shape (entries acc) (mask acc) → robin (entries acc) (mask acc) →
    size acc = occupancy (entries acc) →
    4 * (size acc + occupancy old) ≤ 3 * len (entries acc) →
    (length (entries acc) ≤ fuel)%nat →
    (∀ k v, holds (entries acc) k v
            ↔ ∃ e, e ∈ pre ∧ occupied e = true ∧ key e = k ∧ value e = v) →
    ∃ m', reinsert (Put fuel) old acc = Some m' ∧ ok m'
          ∧ robin (entries m') (mask m')
          ∧ length (entries m') = length (entries acc)
          ∧ mask m' = mask acc
          ∧ size m' = size acc + occupancy old
          ∧ (∀ k v, holds (entries m') k v ↔ holds src k v).
Proof.
  intros Hsrc Hrsrc old.
  induction old as [|e old IH];
    intros pre acc Hpre Hs Hr Hsz Hload Hfuel Hview; simpl in *.
  - exists acc. split; [done|]. split; [split; [done|split; [done|lia]]|].
    split; [done|]. split; [done|]. split; [done|]. split; [lia|].
    intros k v. rewrite Hview, holds_elem, Hpre, app_nil_r. done.
  - pose proof (occupancy_le old) as Hold.
    pose proof (shape_len _ _ Hs) as H8. unfold len in H8.
    assert (Hpre' : src = (pre ++ [e]) ++ old) by (by rewrite <- app_assoc).
    destruct (occupied e) eqn:Hocc.
    + destruct fuel as [|fuel]; [lia|]. rewrite Put_place.
      replace (over_load (size acc) (len (entries acc))) with false
        by (symmetry; apply over_load_false; lia).
      destruct (place_robin (S fuel) acc (key e) (value e))
        as (m1 & Hrun & (Hs1 & Hsz1 & _) & Hr1 & Hlen1 & Hmask1 & Hview1
            & _ & Hsize1); [done|done|done|lia|lia|].
      rewrite Hrun.
      assert (Hlen1' : len (entries m1) = len (entries acc))
        by (unfold len; by rewrite Hlen1).
      assert (Habs : ¬ present (entries acc) (key e)).
      { intros Hp. apply present_holds in Hp as (v' & Hv').
        apply Hview in Hv' as (e' & Hin & Hocc' & Hk' & _).
        by apply (robin_unique_app src srcmsk pre old e e'). }
      specialize (Hsize1 Habs).
      destruct (IH (pre ++ [e]) m1)
        as (m' & Hrun' & Hok' & Hr' & Hlen' & Hmask' & Hsize' & Hview');
        [done|done|done|done|rewrite Hlen1'; lia|rewrite Hlen1; lia| |].
      { intros k v. rewrite Hview1, Hview. split.
        - intros [(-> & ->)|(Hne & e' & Hin & Hrest)].
          + exists e. split; [|done]. apply elem_of_app. right.
            by apply list_elem_of_singleton.
          + exists e'. split; [|done]. apply elem_of_app. by left.
        - intros (e' & Hin & Hocc' & Hk' & Hv').
          apply elem_of_app in Hin as [Hin|Hin].
          + right. split; [|by exists e'].
            intros ->.
            by apply (robin_unique_app src srcmsk pre old e e').
          + apply list_elem_of_singleton in Hin as ->. by left. }
      exists m'. split; [done|]. split; [done|]. split; [done|].
      split; [congruence|]. split; [congruence|]. split; [lia|done].
    + destruct (IH (pre ++ [e]) acc)
        as (m' & Hrun' & Hok' & Hr' & Hlen' & Hmask' & Hsize' & Hview');
        [done|done|done|done|lia|done| |].
      { intros k v. rewrite Hview. split.
        - intros (e' & Hin & Hrest). exists e'. split; [|done].
          apply elem_of_app. by left.
        - intros (e' & Hin & Hocc' & Hrest).
          apply elem_of_app in Hin as [Hin|Hin]; [by exists e'|].
          apply list_elem_of_singleton in Hin as ->. congruence. }
      exists m'. do 5 (split; [done|]). split; [lia|done].
Qed.

Lemma Put_inv (fuel : nat) (m : RobinHoodMap) (k : K) (v : V) :
  inv m → (2 * length (entries m) < fuel)%nat →
  ∃ m', Put fuel m k v = Some m' ∧ inv m'
        ∧ (∀ k' v', holds (entries m') k' v'
                    ↔ (k' = k ∧ v' = v) ∨ (k' ≠ k ∧ holds (entries m) k' v'))
        ∧ (present (entries m) k → size m' = size m)
        ∧ (¬ present (entries m) k → size m' = size m + 1)
        ∧ (over_load (size m) (len (entries m)) = false →
           present (entries m) k → update_in_place m m' k v)
        ∧ (over_load (size m) (len (entries m)) = true →
           len (entries m') = 2 * len (entries m)).
Proof.
  intros ((Hs & Hsz & Hload) & Hr) Hfuel.
  pose proof (shape_len _ _ Hs) as H8.
  destruct fuel as [|fuel]; [lia|]. rewrite Put_place.
  destruct (over_load (size m) (len (entries m))) eqn:Hover.
  - unfold resize_with.
    pose proof (occupancy_le (entries m)) as Hle.
    set (m0 := {| entries := make (len (entries m) * 2); size := 0;
                  mask := len (entries m) * 2 - 1 |}).
    assert (Hlen0 : len (entries m0) = len (entries m) * 2)
      by (apply len_make; lia).
    destruct (reinsert_robin fuel (entries m) (mask m) Hs Hr (entries m) [] m0)
      as (m1 & Hrun & (Hs1 & Hsz1 & _) & Hr1 & Hlen1 & Hmask1 & Hsize1 & Hview1).
    + done.
    + by apply (shape_double _ (mask m)).
    + apply robin_make.
    + simpl. by rewrite occupancy_make.
    + rewrite Hlen0. simpl. lia.
    + unfold len in Hlen0. lia.
    + intros k' v'. split.
      * intros H. by apply holds_make in H.
      * intros (e & Hin & _). by apply elem_of_nil in Hin.
    + rewrite Hrun.
      assert (Hlen1' : len (entries m1) = len (entries m) * 2)
        by (rewrite <- Hlen0; unfold len; by rewrite Hlen1).
      simpl in Hsize1.
      destruct (place_robin (S fuel) m1 k v)
        as (m' & Hrun' & Hok' & Hr' & Hlen' & _ & Hview' & Hupd & Hnew);
        [done|done|done|lia|unfold len in *; lia|].
      assert (Hpres : present (entries m1) k ↔ present (entries m) k).
      { split; intros Hp; apply present_holds in Hp as (v' & Hv');
          apply Hview1 in Hv'; by apply (holds_present _ _ v'). }
      exists m'. split; [done|]. split; [done|].
      split; [|split; [|split; [|split; [done|]]]].
      * intros k' v'. rewrite Hview'. by rewrite Hview1.
      * intros Hp. apply Hpres in Hp.
        destruct (Hupd Hp) as (p & e & _ & _ & _ & _ & ->). simpl. lia.
      * intros Hp. rewrite <- Hpres in Hp. rewrite (Hnew Hp). lia.
      * intros _. unfold len in *. lia.
  - pose proof Hover as Hover'. apply over_load_false in Hover.
    destruct (place_robin (S fuel) m k v)
      as (m' & Hrun' & Hok' & Hr' & _ & _ & Hview' & Hupd & Hnew);
      [done|done|done|done|lia|].
    exists m'. split; [done|]. split; [done|]. split; [done|].
    split; [|split; [done|split; [|done]]].
    + intros Hp. by destruct (Hupd Hp) as (p & e & _ & _ & _ & _ & ->).
    + intros _ Hp. destruct (Hupd Hp) as (p & e & Hp' & He & Hocc & Hk & ->).
      split; [done|]. split; [done|]. by exists p, e.
Qed.

Lemma inv_new : inv NewRobinHoodMap.
Proof. split; [apply ok_new|apply robin_make]. Qed.

(** A sequence of [Put]s of distinct new keys adds exactly these pairs. *)
Lemma put_all_inv (kvs : list (K * V)) :
  ∀ m : RobinHoodMap,
    inv m → NoDup kvs.*1 → (∀ k, k ∈ kvs.*1 → ¬ present (entries m) k) →
    ∃ m', (∃ fuel0, ∀ fuel, (fuel0 ≤ fuel)%nat → put_all fuel kvs m = Some m')
          ∧ inv m'
          ∧ size m' = size m + Z.of_nat (length kvs)
          ∧ (∀ k v, holds (entries m') k v
                    ↔ (k, v) ∈ kvs ∨ holds (entries m) k v).
Proof.
  induction kvs as [|[k v] kvs IH]; intros m Hinv Hnd Habs.
  - exists m. split; [by exists O|]. split; [done|]. split; [simpl; lia|].
    intros k v. rewrite elem_of_nil. tauto.
  - apply list.NoDup_cons in Hnd as [Hk Hnd]. simpl in Hk.
    destruct (Put_inv (S (2 * length (entries m))) m k v Hinv)
      as (m1 & Hrun1 & Hinv1 & Hview1 & _ & Hsize1 & _); [lia|].
    assert (Habsk : ¬ present (entries m) k)
      by (apply Habs; simpl; apply elem_of_cons; by left).
    specialize (Hsize1 Habsk).
    destruct (IH m1 Hinv1 Hnd) as (m' & (fuel0 & Hrun') & Hinv' & Hsize' & Hview').
    { intros k' Hk' Hp. apply present_holds in Hp as (v' & Hv').
      apply Hview1 in Hv' as [(-> & _)|(_ & Hv')]; [done|].
      apply (Habs k'); [simpl; apply elem_of_cons; by right|].
      by apply (holds_present _ _ v'). }
    exists m'. split; [|split; [done|split]].
    + exists (max fuel0 (S (2 * length (entries m)))). intros fuel Hfuel.
      simpl. rewrite (Put_mono _ fuel _ _ _ _ Hrun1) by lia.
      apply Hrun'. lia.
    + rewrite Hsize'. simpl length. lia.
    + intros k' v'. rewrite Hview', Hview1, elem_of_cons. split.
      * intros [H|[(-> & ->)|(_ & H)]]; [left; by right|left; by left|by right].
      * intros [[H|H]|H]; [right; left; by injection H|by left|right; right].
        split; [|done]. intros ->.
        apply Habsk. by apply (holds_present _ _ v').
Qed.

(** ** The Robin Hood invariant: Remove, for tables of at most 256 slots *)

Lemma robin_robin_h (es : list entry) (msk h : Z) :
  robin es msk → robin_h es msk h.
Proof.
  intros Hr p e Hp _ He Hocc.
  destruct (Hr p e Hp He Hocc) as (d & Hd & Hpd & Hdist & Hprobe).
  exists d. repeat (split; [done|]). intros j Hj. right. by apply Hprobe.
Qed.

Lemma pos_1_ne (n i : Z) : 1 < n → 0 ≤ i < n → pos n i 1 ≠ i.
Proof.
  intros Hn Hi. rewrite <- (pos_0 n (pos n i 1)) by (apply pos_range; lia).
  apply pos_succ_ne; lia.
Qed.

Lemma pos_1_inj (n a b : Z) :
  0 ≤ a < n → 0 ≤ b < n → pos n a 1 = pos n b 1 → a = b.
Proof.
  intros Ha Hb Heq. apply (pos_inj n 1); [done|done|].
  unfold pos in *. by rewrite (Z.add_comm 1 a), (Z.add_comm 1 b).
Qed.

(** When the shift stops, no probe sequence passes through the vacated
    slot. *)
Lemma shift_stop_clear (es : list entry) (msk h q : Z) (ne eq : entry)
    (d j : Z) :
  shape es msk → len es ≤ 256 → 0 ≤ h < len es →
  slot es (pos (len es) h 1) = Some ne →
  negb (occupied ne) || (distance ne =? 0) = true →
  0 ≤ d < len es → q = pos (len es) (home msk (key eq)) d →
  slot es q = Some eq → occupied eq = true → distance eq = wrap8 d →
  probe_ok_h es msk (key eq) d h →
  0 ≤ j < d → pos (len es) (home msk (key eq)) j ≠ h.
Proof.
  intros Hs H256 Hh Hne Hstop Hd Hq Heq Hocc Hdist Hprobe Hj Hjh.
  pose proof (shape_len _ _ Hs) as H8.
  assert (Hnext : pos (len es) (home msk (key eq)) (j + 1) = pos (len es) h 1)
    by (by rewrite <- Hjh, pos_pos).
  apply orb_true_iff in Hstop.
  destruct (decide (j + 1 = d)) as [Hjd|Hjd].
  - rewrite Hjd in Hnext. rewrite Hq, Hnext, Hne in Heq. injection Heq as ->.
    rewrite wrap8_small in Hdist by lia.
    destruct Hstop as [Hst|Hst];
      [rewrite Hocc in Hst; done|apply Z.eqb_eq in Hst; lia].
  - destruct (Hprobe (j + 1)) as [Hbad|(x & Hx & Hox & Hdx & _)]; [lia| |].
    + rewrite Hnext in Hbad. revert Hbad. apply pos_1_ne; lia.
    + rewrite Hnext, Hne in Hx. injection Hx as <-.
      rewrite wrap8_small in Hdx by lia.
      destruct Hstop as [Hst|Hst];
        [rewrite Hox in Hst; done|apply Z.eqb_eq in Hst; lia].
Qed.

Lemma shift_back_robin (fuel : nat) :
  ∀ (es : list entry) (msk i : Z) (es' : list entry),
    shape es msk → len es ≤ 256 → 0 ≤ i < len es →
    robin_h es msk i →
    shift_back fuel es msk i (pos (len es) i 1) = Some es' →
    robin es' msk ∧ (∀ k v, holds es' k v ↔ holds_except es i k v).
Proof.
  induction fuel as [|fuel IH]; intros es msk i es' Hs H256 Hi Hr Hrun;
    simpl in Hrun; [done|].
  pose proof (shape_len _ _ Hs) as H8.
  assert (Hn : 0 ≤ pos (len es) i 1 < len es) by (apply pos_range; lia).
  assert (Hni : pos (len es) i 1 ≠ i) by (apply pos_1_ne; lia).
  destruct (slot_is_Some es _ Hn) as (ne & Hne).
  destruct (slot_is_Some es _ Hi) as (ei & Hei).
  rewrite Hne, Hei in Hrun.
  destruct (negb (occupied ne) || (distance ne =? 0)) eqn:Hstop.
  - (* the shift stops: slot [i] is marked unoccupied *)
    injection Hrun as <-. split.
    + intros q eq Hq Heq Hocc. rewrite len_store in Hq.
      destruct (decide (q = i)) as [->|Hqi].
      { rewrite slot_store_eq in Heq by done. by injection Heq as <-. }
      rewrite slot_store_ne in Heq by lia.
      destruct (Hr q eq Hq Hqi Heq Hocc) as (d & Hd & Hqd & Hdist & Hprobe).
      exists d. rewrite len_store. repeat (split; [done|]).
      intros j Hj. rewrite len_store.
      assert (Hji : pos (len es) (home msk (key eq)) j ≠ i)
        by (by apply (shift_stop_clear es msk i q ne eq d j)).
      destruct (Hprobe j Hj) as [Hbad|(x & Hx & Hrest)]; [done|].
      exists x. split; [|done].
      rewrite slot_store_ne; [done|lia|apply pos_range; lia|done].
    + intros k v. rewrite holds_store by done. simpl.
      intuition congruence.
  - (* one step: the next entry moves back into slot [i] *)
    apply orb_false_iff in Hstop as [Hocc Hdist0].
    apply negb_false_iff in Hocc. apply Z.eqb_neq in Hdist0.
    set (ne' := mkEntry (key ne) (value ne) (wrap8 (distance ne - 1))
                  (occupied ne)) in *.
    rewrite (shape_next es) in Hrun by done.
    destruct (Hr _ ne Hn Hni Hne Hocc) as (dn & Hdn & Hpn & Hdistn & Hproben).
    rewrite wrap8_small in Hdistn by lia.
    assert (Hin : i = pos (len es) (home msk (key ne)) (dn - 1)).
    { apply (pos_1_inj (len es)); [done|apply pos_range; lia|].
      rewrite pos_pos, Hpn. f_equal. lia. }
    destruct (IH (store es i ne') msk (pos (len es) i 1) es')
      as (Hr' & Hview').
    + by apply shape_store.
    + by rewrite len_store.
    + by rewrite len_store.
    + intros q eq Hq Hqn Heq Hoq. rewrite len_store in *.
      destruct (decide (q = i)) as [->|Hqi].
      * rewrite slot_store_eq in Heq by done. injection Heq as <-.
        exists (dn - 1). simpl. split; [lia|]. split; [done|].
        split; [by rewrite Hdistn|].
        intros j Hj. right. rewrite len_store.
        destruct (Hproben j) as [Hbad|(x & Hx & Hrest)]; [lia| |].
        -- rewrite Hin in Hbad. apply pos_inj in Hbad; lia.
        -- exists x. split; [|done].
           rewrite slot_store_ne; [done|lia|apply pos_range; lia|].
           rewrite Hin at 1. intros Hbad. apply pos_inj in Hbad; lia.
      * rewrite slot_store_ne in Heq by lia.
        destruct (Hr q eq Hq Hqi Heq Hoq) as (d & Hd & Hqd & Hdist & Hprobe).
        exists d. repeat (split; [done|]).
        intros j Hj. rewrite len_store.
        destruct (decide (pos (len es) (home msk (key eq)) j
                          = pos (len es) i 1)) as [Hjn|Hjn]; [by left|right].
        destruct (decide (pos (len es) (home msk (key eq)) j = i)) as [Hji|Hji].
        -- rewrite Hji, slot_store_eq by done. exists ne'. simpl.
           assert (Hnext : pos (len es) (home msk (key eq)) (j + 1)
                           = pos (len es) i 1)
             by (by rewrite <- Hji, pos_pos).
           assert (Hjd : j + 1 < d).
           { destruct (decide (j + 1 = d)) as [Hjd|Hjd]; [|lia].
             rewrite Hjd in Hnext. congruence. }
           destruct (Hprobe (j + 1)) as [Hbad|(x & Hx & Hox & Hdx & Hkx)];
             [lia|congruence|].
           rewrite Hnext, Hne in Hx. injection Hx as <-.
           rewrite wrap8_small in Hdx by lia.
           rewrite !wrap8_small by lia.
           repeat split; (done || lia).
        -- destruct (Hprobe j Hj) as [Hbad|(x & Hx & Hrest)]; [done|].
           exists x. split; [|done].
           rewrite slot_store_ne; [done|lia|apply pos_range; lia|done].
    + rewrite len_store. done.
    + split; [done|]. intros k v. rewrite Hview'.
      unfold holds_except. rewrite len_store. split.
      * intros (q & eq & Hq & Hqn & Heq & Hoq & Hkq & Hvq).
        destruct (decide (q = i)) as [->|Hqi].
        -- rewrite slot_store_eq in Heq by done. injection Heq as <-.
           exists (pos (len es) i 1), ne. done.
        -- rewrite slot_store_ne in Heq by lia. by exists q, eq.
      * intros (q & eq & Hq & Hqi & Heq & Hoq & Hkq & Hvq).
        destruct (decide (q = pos (len es) i 1)) as [->|Hqn].
        -- exists i, ne'. rewrite slot_store_eq by done.
           rewrite Hne in Heq. injection Heq as <-.
           repeat (split; [done|]). done.
        -- exists q, eq. rewrite slot_store_ne by lia. done.
Qed.

Lemma remove_probe_found (n : nat) :
  ∀ (es : list entry) (msk : Z) (k : K) (d j : Z) (e : entry) (fuel : nat),
    shape es msk → 0 ≤ j → j + Z.of_nat n = d →
    probe_ok es msk k d →
    slot es (pos (len es) (home msk k) d) = Some e →
    occupied e = true → key e = k → distance e = wrap8 d →
    (n < fuel)%nat →
    remove_probe fuel es msk (pos (len es) (home msk k) j) k (wrap8 j)
    = match shift_back (fuel - S n) es msk (pos (len es) (home msk k) d)
              (pos (len es) (pos (len es) (home msk k) d) 1) with
      | None => None
      | Some es' => Some (true, es')
      end.
Proof.
  induction n as [|n IH];
    intros es msk k d j e fuel Hs Hj Hjd Hprobe He Hocc Hkey Hdist Hfuel;
    (destruct fuel as [|fuel]; [lia|]); simpl.
  - replace j with d by lia. rewrite He, Hocc, Hdist, Z.ltb_irrefl. simpl.
    rewrite decide_True by done.
    by rewrite (shape_next es), Nat.sub_0_r.
  - destruct (Hprobe j) as (x & Hx & Hox & Hdx & Hkx); [lia|].
    rewrite Hx, Hox. simpl.
    replace (distance x <? wrap8 j) with false by (symmetry; apply Z.ltb_ge; lia).
    rewrite decide_False by done.
    rewrite (shape_next es), pos_pos, wrap8_succ by done.
    apply (IH es msk k d (j + 1) e); (done || lia).
Qed.

Lemma holds_except_unique (es : list entry) (msk p : Z) (e : entry)
    (k : K) (v : V) :
  shape es msk → robin es msk →
  0 ≤ p < len es → slot es p = Some e → occupied e = true →
  holds_except es p k v ↔ k ≠ key e ∧ holds es k v.
Proof.
  intros Hs Hr Hp He Hocc. split.
  - intros (q & eq & Hq & Hne & Heq & Hoq & Hkq & Hvq).
    split; [|by exists q, eq].
    intros ->. apply Hne. by apply (robin_unique es msk q p eq e).
  - intros (Hne & q & eq & Hq & Heq & Hoq & Hkq & Hvq).
    exists q, eq. repeat (split; [done|]). split; [|done].
    intros ->. congruence.
Qed.

Lemma Remove_inv (fuel : nat) (m : RobinHoodMap) (k : K) :
  inv m → len (entries m) ≤ 256 → (length (entries m) ≤ fuel)%nat →
  ∃ found m', Remove fuel m k = Some (found, m') ∧ inv m'
              ∧ length (entries m') = length (entries m)
              ∧ mask m' = mask m
              ∧ (found = true ↔ present (entries m) k)
              ∧ size m' = size m - (if found then 1 else 0)
              ∧ (∀ k' v', holds (entries m') k' v'
                          ↔ k' ≠ k ∧ holds (entries m) k' v').
Proof.
  intros (Hok & Hr) H256 Hfuel. pose proof Hok as (Hs & _).
  pose proof (shape_len _ _ Hs) as H8.
  destruct (Remove_ok fuel m k Hok Hfuel)
    as (found & m' & Hrun & Hok' & Hlen' & Hmask' & Hsize' & Hsame & Hpres).
  exists found, m'. split; [done|].
  destruct (present_dec (entries m) k) as [Hp|Habs].
  - destruct Hp as (p & e & Hp & He & Hocc & Hk).
    destruct (Hr p e Hp He Hocc) as (d & Hd & Hpd & Hdist & Hprobe).
    rewrite Hk in *.
    unfold Remove in Hrun. fold (home (mask m) k) in Hrun.
    rewrite <- (home_pos (entries m)) in Hrun by done.
    change 0 with (wrap8 0) in Hrun at 2.
    rewrite (remove_probe_found (Z.to_nat d) (entries m) (mask m) k d 0 e)
      in Hrun; [|done|lia|lia|done|by rewrite <- Hpd|done|done|done
                |unfold len in *; lia].
    rewrite <- Hpd in Hrun.
    destruct (shift_back _ _ _ _ _) as [es'|] eqn:Hsh; [|done].
    injection Hrun as <- <-.
    destruct (shift_back_robin _ _ _ _ _ Hs H256 Hp
                (robin_robin_h _ _ p Hr) Hsh) as (Hr' & Hview').
    split; [by split|]. split; [done|]. split; [done|].
    split; [split; [intros _; by exists p, e|done]|].
    split; [done|].
    intros k' v'. simpl. rewrite Hview'.
    rewrite (holds_except_unique _ (mask m) p e) by done. by rewrite Hk.
  - assert (found = false) as -> by (destruct found; [by destruct Habs; auto|done]).
    rewrite (Hsame eq_refl) in *.
    split; [by split|]. split; [done|]. split; [done|].
    split; [split; [done|intros Hp; by destruct Habs]|].
    split; [lia|].
    intros k' v'. split; [|tauto].
    intros H. split; [|done]. intros ->. apply Habs.
    by apply (holds_present _ _ v').
Qed.

(** The Robin Hood invariant holds in every reachable state whose slot
    array has at most 256 slots. *)
Lemma reachable_robin (m : RobinHoodMap) :
  reachable m → len (entries m) ≤ 256 → robin (entries m) (mask m).
Proof.
  induction 1 as [|m fuel k v m' Hm IH Hrun|m fuel k r m' Hm IH Hrun
                  |m fuel k b m' Hm IH Hrun|m _ IH|m _ IH]; intros H256.
  - apply robin_make.
  - pose proof (reachable_ok m Hm) as Hok.
    destruct (Put_ok (max fuel (2 * length (entries m) + 1)) m k v Hok)
      as (m2 & Hrun2 & _ & _ & Hlen2); [lia|].
    rewrite (Put_mono fuel _ _ _ _ _ Hrun) in Hrun2 by lia.
    injection Hrun2 as <-.
    pose proof (len_nonneg (entries m)).
    destruct (Put_inv (max fuel (2 * length (entries m) + 1)) m k v)
      as (m2 & Hrun2 & (_ & Hr2) & _); [split; [done|apply IH; lia]|lia|].
    rewrite (Put_mono fuel _ _ _ _ _ Hrun) in Hrun2 by lia.
    by injection Hrun2 as ->.
  - destruct (Get_ok (max fuel (length (entries m))) m k (reachable_ok m Hm))
      as (r2 & Hrun2 & _); [lia|].
    rewrite (Get_mono fuel _ _ _ _ Hrun) in Hrun2 by lia.
    injection Hrun2 as _ <-. by apply IH.
  - pose proof (reachable_ok m Hm) as Hok.
    destruct (Remove_ok (max fuel (length (entries m))) m k Hok)
      as (b2 & m2 & Hrun2 & _ & Hlen2 & _); [lia|].
    rewrite (Remove_mono fuel _ _ _ _ Hrun) in Hrun2 by lia.
    injection Hrun2 as <- <-.
    assert (H256' : len (entries m) ≤ 256) by (unfold len in *; lia).
    destruct (Remove_inv (max fuel (length (entries m))) m k)
      as (b2 & m2 & Hrun2 & (_ & Hr2) & _); [split; [done|by apply IH]|done|lia|].
    rewrite (Remove_mono fuel _ _ _ _ Hrun) in Hrun2 by lia.
    by injection Hrun2 as _ ->.
  - by apply IH.
  - apply robin_make.
Qed.

(** ** Consequences for the public operations *)

Lemma present_make (n : Z) (k : K) : ¬ present (make n) k.
Proof.
  intros Hp. apply present_holds in Hp as (v & Hv). by apply holds_make in Hv.
Qed.

(** A search for a key that is not stored reports not-found, in any table
    that satisfies the bookkeeping invariant. *)
Lemma Get_absent (fuel : nat) (m : RobinHoodMap) (k : K) :
  ok m → ¬ present (entries m) k → (length (entries m) ≤ fuel)%nat →
  Get fuel m k = Some (zeroV, false, m).
Proof.
  intros Hok Habs Hfuel.
  destruct (Get_ok fuel m k Hok Hfuel) as ([v b] & Hrun & Hfound & Hzero).
  simpl in *. destruct b.
  - destruct Habs. by apply (holds_present _ _ v), Hfound.
  - by rewrite Hzero in Hrun.
Qed.

Lemma Get_holds (fuel : nat) (m : RobinHoodMap) (k : K) (v : V) :
  inv m → holds (entries m) k v → (length (entries m) ≤ fuel)%nat →
  Get fuel m k = Some (v, true, m).
Proof.
  intros ((Hs & _) & Hr) (p & e & Hp & He & Hocc & <- & <-) Hfuel.
  by apply (Get_found fuel m p e).
Qed.

Lemma resize_ok (fuel : nat) (m m' : RobinHoodMap) :
  ok m → resize fuel m = Some m' → ok m'.
Proof.
  intros (Hs & Hsz & Hload) Hrun. unfold resize, resize_with in Hrun.
  pose proof (shape_len _ _ Hs) as H8.
  pose proof (occupancy_le (entries m)) as Hle.
  set (m0 := {| entries := make (len (entries m) * 2); size := 0;
                mask := len (entries m) * 2 - 1 |}) in *.
  assert (Hlen0 : len (entries m0) = len (entries m) * 2)
    by (apply len_make; lia).
  destruct (reinsert_ok (max fuel (length (entries m0))) (entries m) m0)
    as (m1 & Hrun1 & Hok1 & _).
  - by apply (shape_double _ (mask m)).
  - simpl. by rewrite occupancy_make.
  - rewrite Hlen0. simpl. lia.
  - lia.
  - assert (Hmono : ∀ m k v r, Put fuel m k v = Some r →
                      Put (max fuel (length (entries m0))) m k v = Some r).
    { intros m2 k v r H. apply (Put_mono fuel _ _ _ _ _ H). lia. }
    rewrite (reinsert_mono _ _ Hmono _ _ _ Hrun) in Hrun1.
    by injection Hrun1 as ->.
Qed.

Lemma put_all_reachable (fuel : nat) (kvs : list (K * V)) :
  ∀ m m', reachable m → put_all fuel kvs m = Some m' → reachable m'.
Proof.
  induction kvs as [|[k v] kvs IH]; intros m m' Hm Hrun; simpl in Hrun.
  - by injection Hrun as <-.
  - destruct (Put fuel m k v) as [m1|] eqn:Hput; [|done].
    apply (IH m1); [|done]. by apply (reach_put m fuel k v).
Qed.

Lemma reachable_inv (m : RobinHoodMap) :
  reachable m → len (entries m) ≤ 256 → inv m.
Proof. intros Hm H256. split; [by apply reachable_ok|by apply reachable_robin]. Qed.

(** C1. For every sequence of [Put] calls with pairwise distinct keys,
    starting from a fresh table, all the calls return, [Size] is the number
    of pairs, and a subsequent [Get] on each inserted key returns its value
    and [true].  The sequence has any length, so it may cross the load
    factor threshold any number of times. *)
Theorem put_get_roundtrip (kvs : list (K * V)) :
  NoDup kvs.*1 →
  ∃ m, (∃ fuel0, ∀ fuel, (fuel0 ≤ fuel)%nat →
                         put_all fuel kvs NewRobinHoodMap = Some m)
       ∧ (Size m).1 = Z.of_nat (length kvs)
       ∧ ∀ k v fuel, (k, v) ∈ kvs → (length (entries m) ≤ fuel)%nat →
                     Get fuel m k = Some (v, true, m).
Proof.
  intros Hnd.
  destruct (put_all_inv kvs NewRobinHoodMap inv_new Hnd)
    as (m & Hrun & Hinv & Hsize & Hview).
  { intros k _. apply present_make. }
  exists m. split; [done|]. split; [done|].
  intros k v fuel Hin Hfuel. apply Get_holds; [done| |done].
  apply Hview. by left.
Qed.

(** C2 (amended). In every reachable state with at most 256 slots, [Put]
    on a key that is already stored returns, leaves [Size] unchanged, makes
    the table map the key to the new value and keeps the value of every
    other key.  When the load factor check at the head of [Put] does not
    fire, the value is overwritten in place and every other slot is
    unchanged; when it fires, the slot array is rebuilt with twice as many
    slots before the value is written. *)
Theorem put_existing_updates (m : RobinHoodMap) (k : K) (v : V) :
  reachable m → len (entries m) ≤ 256 → present (entries m) k →
  ∃ m', (∀ fuel, (2 * length (entries m) < fuel)%nat →
                 Put fuel m k v = Some m')
        ∧ (Size m').1 = (Size m).1
        ∧ (∀ k' v', holds (entries m') k' v'
                    ↔ (k' = k ∧ v' = v) ∨ (k' ≠ k ∧ holds (entries m) k' v'))
        ∧ (over_load (size m) (len (entries m)) = false →
           update_in_place m m' k v)
        ∧ (over_load (size m) (len (entries m)) = true →
           len (entries m') = 2 * len (entries m)).
Proof.
  intros Hm H256 Hp. pose proof (reachable_inv m Hm H256) as Hinv.
  destruct (Put_inv (S (2 * length (entries m))) m k v Hinv)
    as (m' & Hrun & _ & Hview & Hsize & _ & Hupd & Hdbl); [lia|].
  exists m'. split; [|split; [by apply Hsize|split; [done|split; [|done]]]].
  - intros fuel Hfuel. apply (Put_mono _ fuel _ _ _ _ Hrun). lia.
  - intros Hover. by apply Hupd.
Qed.

(** C4. In every reachable state, [Remove] of a key that is not stored
    returns [false] and leaves the slot array, the size and the mask as
    they were. *)
Theorem remove_absent_noop (m : RobinHoodMap) (k : K) (fuel : nat) :
  reachable m → ¬ present (entries m) k → (length (entries m) ≤ fuel)%nat →
  Remove fuel m k = Some (false, m).
Proof.
  intros Hm Habs Hfuel.
  destruct (Remove_ok fuel m k (reachable_ok m Hm) Hfuel)
    as (found & m' & Hrun & _ & _ & _ & _ & Hsame & Hpres).
  destruct found; [by destruct Habs; auto|].
  by rewrite (Hsame eq_refl) in Hrun.
Qed.

(** C5. After [Clear] on a reachable state, [Size] is 0, the slot array
    has exactly 8 slots, all unoccupied, the mask is 7, and [Get] on every
    key returns the zero value and [false]. *)
Theorem clear_resets (m : RobinHoodMap) :
  reachable m →
  (Size (Clear m)).1 = 0
  ∧ length (entries (Clear m)) = 8%nat
  ∧ (∀ e, e ∈ entries (Clear m) → occupied e = false)
  ∧ mask (Clear m) = 7
  ∧ ∀ k fuel, (8 ≤ fuel)%nat →
              Get fuel (Clear m) k = Some (zeroV, false, Clear m).
Proof.
  intros _. split; [done|]. split; [done|]. split; [|split; [done|]].
  - intros e He. unfold Clear, make in He. cbn [entries] in He.
    apply elem_of_replicate in He as [-> _]. done.
  - intros k fuel Hfuel. apply Get_absent; [apply ok_clear| |done].
    apply present_make.
Qed.

(** C7. In every reachable state the [size] field is the number of
    occupied slots, and [Put], [Get], [Remove], [resize] and [Clear] all
    lead to states where this holds again. *)
Theorem size_counts_occupied (m : RobinHoodMap) :
  reachable m →
  size m = occupancy (entries m)
  ∧ (∀ fuel k v m', Put fuel m k v = Some m' →
                    size m' = occupancy (entries m'))
  ∧ (∀ fuel k r m', Get fuel m k = Some (r, m') →
                    size m' = occupancy (entries m'))
  ∧ (∀ fuel k b m', Remove fuel m k = Some (b, m') →
                    size m' = occupancy (entries m'))
  ∧ (∀ fuel m', resize fuel m = Some m' → size m' = occupancy (entries m'))
  ∧ size (Clear m) = occupancy (entries (Clear m)).
Proof.
  intros Hm. split; [apply (reachable_ok m Hm)|].
  split; [|split; [|split; [|split]]].
  - intros fuel k v m' Hrun. by apply reachable_ok, (reach_put m fuel k v).
  - intros fuel k r m' Hrun. by apply reachable_ok, (reach_get m fuel k r).
  - intros fuel k b m' Hrun. by apply reachable_ok, (reach_remove m fuel k b).
  - intros fuel m' Hrun. apply (resize_ok fuel m m' (reachable_ok m Hm) Hrun).
  - apply ok_clear.
Qed.

(** C8. In every reachable state the load factor is at most 0.75 and some
    slot is unoccupied; [Put] returns for every key and value (given fuel
    for two passes over the slot array), the table is again at most three
    quarters full, and the key is stored with the value. *)
Theorem put_terminates (m : RobinHoodMap) (k : K) (v : V) :
  reachable m →
  4 * size m ≤ 3 * len (entries m)
  ∧ (∃ i, 0 ≤ i < len (entries m) ∧ vacant (entries m) i)
  ∧ ∃ m', (∀ fuel, (2 * length (entries m) < fuel)%nat →
                   Put fuel m k v = Some m')
          ∧ holds (entries m') k v
          ∧ 4 * size m' ≤ 3 * len (entries m')
          ∧ (∃ i, 0 ≤ i < len (entries m') ∧ vacant (entries m') i).
Proof.
  intros Hm. pose proof (reachable_ok m Hm) as Hok.
  split; [apply Hok|]. split; [by apply occupancy_vacant, ok_room|].
  destruct (Put_ok (S (2 * length (entries m))) m k v Hok)
    as (m' & Hrun & Hok' & Hholds & _); [lia|].
  exists m'. split; [|split; [done|split; [apply Hok'|]]].
  - intros fuel Hfuel. apply (Put_mono _ fuel _ _ _ _ Hrun). lia.
  - by apply occupancy_vacant, ok_room.
Qed.

(** C10. In every reachable state [Get] returns (given fuel for one pass
    over the slot array), and neither [Get] nor [Size] changes the slot
    array, the size or the mask. *)
Theorem get_size_read_only (m : RobinHoodMap) (k : K) :
  reachable m →
  (∃ r, ∀ fuel, (length (entries m) ≤ fuel)%nat → Get fuel m k = Some (r, m))
  ∧ (∀ fuel r m', Get fuel m k = Some (r, m') →
                  entries m' = entries m ∧ size m' = size m
                  ∧ mask m' = mask m)
  ∧ entries (Size m).2 = entries m ∧ size (Size m).2 = size m
  ∧ mask (Size m).2 = mask m.
Proof.
  intros Hm. split; [|split; [|done]].
  - destruct (Get_ok (length (entries m)) m k (reachable_ok m Hm))
      as (r & Hrun & _); [done|].
    exists r. intros fuel Hfuel. by apply (Get_mono _ fuel _ _ _ Hrun).
  - intros fuel r m' Hrun. unfold Get in Hrun.
    destruct (get_probe _ _ _ _ _ _); [|done]. by injection Hrun as _ <-.
Qed.

(** ** Tables of at most 256 slots *)

(** As long as the slot array has at most 256 slots no probe distance
    reaches 256, and the table behaves as a Robin Hood table with exact
    distances. *)

(** X1. In every reachable state with at most 256 slots every occupied
    slot stores its exact displacement from the home bucket of its key. *)
Lemma distance_exact_small (m : RobinHoodMap) :
  reachable m → len (entries m) ≤ 256 → distance_exact m.
Proof.
  intros Hm H256 i e Hi He Hocc.
  destruct (reachable_inv m Hm H256) as ((Hs & _) & Hr).
  destruct (Hr i e Hi He Hocc) as (d & Hd & -> & -> & _).
  fold (home (mask m) (key e)). unfold pos.
  rewrite Zminus_mod_idemp_l, wrap8_small by lia.
  replace (home (mask m) (key e) + d - home (mask m) (key e)) with d by lia.
  symmetry. apply Z.mod_small. done.
Qed.

(** X2. In every reachable state with at most 256 slots no key is stored
    in two slots. *)
Lemma keys_unique_small (m : RobinHoodMap) :
  reachable m → len (entries m) ≤ 256 → keys_unique m.
Proof.
  intros Hm H256 i j e e' Hi Hj He He' Hocc Hocc' Hk.
  destruct (reachable_inv m Hm H256) as ((Hs & _) & Hr).
  by apply (robin_unique (entries m) (mask m) i j e e').
Qed.

(** X3. In every reachable state with at most 256 slots, [Remove] of a
    stored key returns [true], [Size] decreases by one, a following [Get] on
    the key reports not-found, and [Get] on every other stored key still
    returns its value. *)
Lemma remove_present_small (m : RobinHoodMap) (k : K) :
  reachable m → len (entries m) ≤ 256 → present (entries m) k →
  ∃ m', (∀ fuel, (length (entries m) ≤ fuel)%nat →
                 Remove fuel m k = Some (true, m'))
        ∧ size m' = size m - 1
        ∧ (∀ fuel, (length (entries m) ≤ fuel)%nat →
                   Get fuel m' k = Some (zeroV, false, m'))
        ∧ (∀ k' v' fuel, k' ≠ k → holds (entries m) k' v' →
                         (length (entries m) ≤ fuel)%nat →
                         Get fuel m' k' = Some (v', true, m')).
Proof.
  intros Hm H256 Hp. pose proof (reachable_inv m Hm H256) as Hinv.
  destruct (Remove_inv (length (entries m)) m k Hinv H256)
    as (found & m' & Hrun & Hinv' & Hlen' & _ & Hfound & Hsize & Hview);
    [done|].
  apply Hfound in Hp as ->.
  exists m'. split; [|split; [done|split]].
  - intros fuel Hfuel. by apply (Remove_mono _ fuel _ _ _ Hrun).
  - intros fuel Hfuel. apply Get_absent; [apply Hinv'| |by rewrite Hlen'].
    intros Hp. apply present_holds in Hp as (v' & Hv').
    apply Hview in Hv' as [Hne _]. done.
  - intros k' v' fuel Hne Hv' Hfuel.
    apply Get_holds; [done| |by rewrite Hlen']. by apply Hview.
Qed.

(** * Further properties of the operations *)

(** ** Properties of every reachable state *)

(** X4. In every reachable state the slot array has [2^n] slots with
    [n >= 3], the mask is the length minus one, masking a hash is reduction
    modulo the length, and the home bucket of every key is an index of the
    slot array. *)
Theorem capacity_power_of_two (m : RobinHoodMap) :
  reachable m →
  (∃ n, 3 ≤ n ∧ len (entries m) = 2 ^ n)
  ∧ mask m = len (entries m) - 1
  ∧ (∀ x, Z.land x (mask m) = x mod len (entries m))
  ∧ (∀ k, ∃ e, slot (entries m) (Z.land (hash k) (mask m)) = Some e).
Proof.
  intros Hm. destruct (reachable_ok m Hm) as (Hs & _).
  pose proof Hs as (n & Hn & Hlen & Hmask).
  split; [by exists n|]. split; [lia|]. split.
  - intros x. by apply shape_land.
  - intros k. apply slot_is_Some. by apply home_range.
Qed.

(** X5. In every reachable state [Get] only reports what is stored: when it
    returns [(v, true)] some occupied slot holds the key with value [v], and
    when it returns not-found the value is the zero value. *)
Theorem get_sound (m : RobinHoodMap) (k : K) (fuel : nat) (v : V) (b : bool)
    (m' : RobinHoodMap) :
  reachable m → Get fuel m k = Some (v, b, m') →
  (b = true → holds (entries m) k v) ∧ (b = false → v = zeroV).
Proof.
  intros Hm Hrun.
  destruct (Get_ok (max fuel (length (entries m))) m k (reachable_ok m Hm))
    as (r & Hrun' & Hr); [lia|].
  rewrite (Get_mono fuel _ _ _ _ Hrun) in Hrun' by lia.
  injection Hrun' as <-. exact Hr.
Qed.

(** X6. In every reachable state [Remove] returns (given fuel for one pass
    over the slot array); it never changes the length of the slot array or
    the mask; it returns [true] only for a key that is stored, and then
    [Size] decreases by exactly one; when it returns [false] the table is
    unchanged. *)
Theorem remove_accounting (m : RobinHoodMap) (k : K) :
  reachable m →
  (∃ b m', ∀ fuel, (length (entries m) ≤ fuel)%nat →
                   Remove fuel m k = Some (b, m'))
  ∧ ∀ fuel b m', Remove fuel m k = Some (b, m') →
      length (entries m') = length (entries m)
      ∧ mask m' = mask m
      ∧ (Size m').1 = (Size m).1 - (if b then 1 else 0)
      ∧ (b = true → present (entries m) k)
      ∧ (b = false → m' = m).
Proof.
  intros Hm. pose proof (reachable_ok m Hm) as Hok. split.
  - destruct (Remove_ok (length (entries m)) m k Hok)
      as (b & m' & Hrun & _); [done|].
    exists b, m'. intros fuel Hfuel. by apply (Remove_mono _ fuel _ _ _ Hrun).
  - intros fuel b m' Hrun.
    destruct (Remove_ok (max fuel (length (entries m))) m k Hok)
      as (b2 & m2 & Hrun2 & _ & Hrest); [lia|].
    rewrite (Remove_mono fuel _ _ _ _ Hrun) in Hrun2 by lia.
    injection Hrun2 as <- <-.
    destruct Hrest as (H1 & H2 & H3 & H4 & H5). done.
Qed.

Lemma Put_ok_len (fuel : nat) (m : RobinHoodMap) (k : K) (v : V) :
  ok m → (2 * length (entries m) < fuel)%nat →
  ∃ m', Put fuel m k v = Some m' ∧ ok m'
        ∧ len (entries m')
          = (if over_load (size m) (len (entries m))
             then 2 * len (entries m) else len (entries m))
        ∧ size m' ≤ size m + 1.
Proof.
  intros (Hs & Hsz & Hload) Hfuel.
  pose proof (shape_len _ _ Hs) as H8.
  destruct fuel as [|fuel]; [lia|]. rewrite Put_place.
  destruct (over_load (size m) (len (entries m))) eqn:Hover.
  - unfold resize_with.
    pose proof (occupancy_le (entries m)) as Hle.
    set (m0 := {| entries := make (len (entries m) * 2); size := 0;
                  mask := len (entries m) * 2 - 1 |}).
    assert (Hlen0 : len (entries m0) = len (entries m) * 2)
      by (apply len_make; lia).
    destruct (reinsert_ok fuel (entries m) m0)
      as (m1 & Hrun & (Hs1 & Hsz1 & _) & Hlen1 & Hmask1 & Hsize1).
    + by apply (shape_double _ (mask m)).
    + simpl. by rewrite occupancy_make.
    + rewrite Hlen0. simpl. lia.
    + unfold len in Hlen0. lia.
    + rewrite Hrun.
      assert (Hlen1' : len (entries m1) = len (entries m) * 2)
        by (rewrite <- Hlen0; unfold len; by rewrite Hlen1).
      simpl in Hsize1.
      destruct (place_ok (S fuel) m1 k v)
        as (m' & Hrun' & Hok' & _ & Hlen' & _ & Hsize');
        [done|done|lia|unfold len in *; lia|].
      exists m'. split; [done|]. split; [done|].
      split; [unfold len in *; lia|lia].
  - apply over_load_false in Hover.
    destruct (place_ok (S fuel) m k v)
      as (m' & Hrun' & Hok' & _ & Hlen' & _ & Hsize'); [done|done|done|lia|].
    exists m'. split; [done|]. split; [done|].
    split; [unfold len; by rewrite Hlen'|lia].
Qed.

(** X7. In every reachable state [Put] keeps the slot array when
    [4 * (size + 1) <= 3 * len] and replaces it by one of exactly twice the
    length otherwise; it never shrinks the array, the mask follows the
    length, and [Size] grows by at most one. *)
Theorem put_capacity (m : RobinHoodMap) (k : K) (v : V) (fuel : nat)
    (m' : RobinHoodMap) :
  reachable m → Put fuel m k v = Some m' →
  len (entries m')
  = (if over_load (size m) (len (entries m))
     then 2 * len (entries m) else len (entries m))
  ∧ mask m' = len (entries m') - 1
  ∧ (Size m').1 ≤ (Size m).1 + 1.
Proof.
  intros Hm Hrun.
  destruct (Put_ok_len (max fuel (2 * length (entries m) + 1)) m k v
              (reachable_ok m Hm)) as (m2 & Hrun2 & Hok2 & Hlen2 & Hsize2);
    [lia|].
  rewrite (Put_mono fuel _ _ _ _ _ Hrun) in Hrun2 by lia.
  injection Hrun2 as <-.
  destruct Hok2 as ((n & _ & Hn & Hmask) & _).
  split; [done|]. split; [lia|done].
Qed.

(** ** Properties of tables of at most 256 slots, and of tables built by
    [Put] alone *)

Lemma holds_unique (m : RobinHoodMap) (k : K) (v v' : V) :
  inv m → holds (entries m) k v → holds (entries m) k v' → v = v'.
Proof.
  intros ((Hs & _) & Hr) (p & e & Hp & He & Hocc & Hk & <-)
         (q & e' & Hq & He' & Hocc' & Hk' & <-).
  assert (p = q) as ->
    by (apply (robin_unique (entries m) (mask m) p q e e');
        (done || congruence)).
  congruence.
Qed.

(** Under the invariant the result of [Get] is determined by the pairs the
    table holds. *)
Lemma Get_view (fuel : nat) (m : RobinHoodMap) (k : K) :
  inv m → (length (entries m) ≤ fuel)%nat →
  ∃ r, Get fuel m k = Some (r, m)
       ∧ (∀ v, holds (entries m) k v ↔ r = (v, true))
       ∧ (¬ present (entries m) k ↔ r.2 = false)
       ∧ (r.2 = false → r.1 = zeroV).
Proof.
  intros Hinv Hfuel.
  destruct (present_dec (entries m) k) as [Hp|Habs].
  - pose proof Hp as Hp'. apply present_holds in Hp' as (v & Hv).
    exists (v, true). split; [by apply Get_holds|].
    split; [|split; [|done]].
    + intros v'. split.
      * intros Hv'. by rewrite (holds_unique m k v v').
      * by intros [= ->].
    + simpl. split; [done|discriminate].
  - exists (zeroV, false). split; [apply Get_absent; (done || apply Hinv)|].
    split; [|done].
    intros v. split; [|done].
    intros Hv. destruct Habs. by apply (holds_present _ _ v).
Qed.

Lemma Get_transfer (fuel fuel' : nat) (m m' : RobinHoodMap) (k : K) r :
  inv m → inv m' →
  (∀ v, holds (entries m) k v ↔ holds (entries m') k v) →
  Get fuel m k = Some (r, m) → (length (entries m') ≤ fuel')%nat →
  Get fuel' m' k = Some (r, m').
Proof.
  intros Hinv Hinv' Hview Hrun Hfuel'.
  destruct (Get_view (max fuel (length (entries m))) m k Hinv)
    as (r1 & Hrun1 & Hh1 & Hp1 & Hz1); [lia|].
  rewrite (Get_mono fuel _ _ _ _ Hrun) in Hrun1 by lia.
  injection Hrun1 as <-.
  destruct (Get_view fuel' m' k Hinv' Hfuel') as (r' & Hrun' & Hh' & Hp' & Hz').
  rewrite Hrun'. f_equal. f_equal.
  destruct r as [v [|]].
  - apply Hh', Hview, Hh1. done.
  - assert (Hb : r'.2 = false).
    { apply Hp'. intros Hp. apply present_holds in Hp as (v' & Hv').
      apply Hview, Hh1 in Hv'. done. }
    destruct r' as [v' b']. simpl in *. subst b'.
    by rewrite (Hz1 eq_refl), (Hz' eq_refl).
Qed.

(** X8. In every reachable state with at most 256 slots [Get] is exact: it
    returns [(v, true)] exactly when an occupied slot holds the key with
    value [v], and it reports not-found exactly when no occupied slot holds
    the key. *)
Theorem get_exact (m : RobinHoodMap) (k : K) (fuel : nat) :
  reachable m → len (entries m) ≤ 256 → (length (entries m) ≤ fuel)%nat →
  ∃ r, Get fuel m k = Some (r, m)
       ∧ (∀ v, holds (entries m) k v ↔ r = (v, true))
       ∧ (¬ present (entries m) k ↔ r.2 = false).
Proof.
  intros Hm H256 Hfuel.
  destruct (Get_view fuel m k (reachable_inv m Hm H256) Hfuel)
    as (r & Hrun & Hh & Hp & _).
  by exists r.
Qed.

(** X9. In every reachable state with at most 256 slots, [Put(k, v)] makes
    a following [Get(k)] return [(v, true)], leaves the result of [Get] on
    every other key as it was, and increases [Size] by one exactly when the
    key was not stored before. *)
Theorem put_then_get (m : RobinHoodMap) (k : K) (v : V) :
  reachable m → len (entries m) ≤ 256 →
  ∃ m', (∀ fuel, (2 * length (entries m) < fuel)%nat →
                 Put fuel m k v = Some m')
        ∧ (∀ fuel, (length (entries m') ≤ fuel)%nat →
                   Get fuel m' k = Some (v, true, m'))
        ∧ (∀ k' fuel fuel' r, k' ≠ k → Get fuel m k' = Some (r, m) →
                              (length (entries m') ≤ fuel')%nat →
                              Get fuel' m' k' = Some (r, m'))
        ∧ (present (entries m) k → (Size m').1 = (Size m).1)
        ∧ (¬ present (entries m) k → (Size m').1 = (Size m).1 + 1).
Proof.
  intros Hm H256. pose proof (reachable_inv m Hm H256) as Hinv.
  destruct (Put_inv (S (2 * length (entries m))) m k v Hinv)
    as (m' & Hrun & Hinv' & Hview & Hsame & Hnew & _); [lia|].
  exists m'. split; [|split; [|split; [|done]]].
  - intros fuel Hfuel. apply (Put_mono _ fuel _ _ _ _ Hrun). lia.
  - intros fuel Hfuel. apply Get_holds; [done| |done]. apply Hview. by left.
  - intros k' fuel fuel' r Hne Hget Hfuel'.
    apply (Get_transfer fuel fuel' m m' k' r); try done.
    intros v'. rewrite Hview. split; [by right|].
    by intros [[? _]|[_ ?]].
Qed.

Lemma resize_mono (fuel fuel' : nat) (m r : RobinHoodMap) :
  resize fuel m = Some r → (fuel ≤ fuel')%nat → resize fuel' m = Some r.
Proof.
  unfold resize, resize_with. intros Hrun Hle.
  apply (reinsert_mono (Put fuel)); [|done].
  intros m0 k v r0 H. by apply (Put_mono fuel).
Qed.

Lemma resize_inv (fuel : nat) (m : RobinHoodMap) :
  inv m → (2 * length (entries m) ≤ fuel)%nat →
  ∃ m', resize fuel m = Some m' ∧ inv m'
        ∧ len (entries m') = 2 * len (entries m)
        ∧ mask m' = 2 * len (entries m) - 1
        ∧ size m' = size m
        ∧ (∀ k v, holds (entries m') k v ↔ holds (entries m) k v).
Proof.
  intros ((Hs & Hsz & Hload) & Hr) Hfuel.
  pose proof (shape_len _ _ Hs) as H8.
  pose proof (occupancy_le (entries m)) as Hle.
  unfold resize, resize_with.
  set (m0 := {| entries := make (len (entries m) * 2); size := 0;
                mask := len (entries m) * 2 - 1 |}).
  assert (Hlen0 : len (entries m0) = len (entries m) * 2)
    by (apply len_make; lia).
  destruct (reinsert_robin fuel (entries m) (mask m) Hs Hr (entries m) [] m0)
    as (m1 & Hrun & Hok1 & Hr1 & Hlen1 & Hmask1 & Hsize1 & Hview1).
  - done.
  - by apply (shape_double _ (mask m)).
  - apply robin_make.
  - simpl. by rewrite occupancy_make.
  - rewrite Hlen0. simpl. lia.
  - unfold len in Hlen0. lia.
  - intros k' v'. split.
    + intros H. by apply holds_make in H.
    + intros (e & Hin & _). by apply elem_of_nil in Hin.
  - exists m1. split; [done|]. split; [done|].
    split; [unfold len in *; lia|]. split; [simpl in Hmask1; lia|].
    split; [simpl in Hsize1; lia|done].
Qed.

(** X10. In every reachable state with at most 256 slots [resize] returns a
    table with twice as many slots and the matching mask, the same [Size],
    and the same result of [Get] for every key. *)
Theorem resize_preserves (m : RobinHoodMap) :
  reachable m → len (entries m) ≤ 256 →
  ∃ m', (∀ fuel, (2 * length (entries m) ≤ fuel)%nat →
                 resize fuel m = Some m')
        ∧ len (entries m') = 2 * len (entries m)
        ∧ mask m' = len (entries m') - 1
        ∧ (Size m').1 = (Size m).1
        ∧ ∀ k fuel fuel' r, Get fuel m k = Some (r, m) →
                            (length (entries m') ≤ fuel')%nat →
                            Get fuel' m' k = Some (r, m').
Proof.
  intros Hm H256. pose proof (reachable_inv m Hm H256) as Hinv.
  destruct (resize_inv (2 * length (entries m)) m Hinv)
    as (m' & Hrun & Hinv' & Hlen' & Hmask' & Hsize' & Hview); [done|].
  exists m'. split; [|split; [done|split; [lia|split; [done|]]]].
  - intros fuel Hfuel. by apply (resize_mono _ fuel _ _ Hrun).
  - intros k fuel fuel' r Hget Hfuel'.
    by apply (Get_transfer fuel fuel' m m' k r).
Qed.

(** X11. In every reachable state with at most 256 slots, an entry stored
    away from its home bucket (distance at least 1) is preceded by an
    occupied slot whose entry has travelled at least as far before it:
    clusters have no gap, and the stored distance grows by at most one from
    one slot to the next. *)
Theorem displaced_entry_has_predecessor (m : RobinHoodMap) (p : Z)
    (e : entry) :
  reachable m → len (entries m) ≤ 256 →
  0 ≤ p < len (entries m) → slot (entries m) p = Some e →
  occupied e = true → 1 ≤ distance e →
  ∃ e', slot (entries m) ((p - 1) mod len (entries m)) = Some e'
        ∧ occupied e' = true ∧ distance e - 1 ≤ distance e'
        ∧ key e' ≠ key e.
Proof.
  intros Hm H256 Hp He Hocc Hdist.
  destruct (reachable_inv m Hm H256) as ((Hs & _) & Hr).
  destruct (Hr p e Hp He Hocc) as (d & Hd & -> & Hde & Hprobe).
  rewrite wrap8_small in Hde by lia.
  destruct (Hprobe (d - 1)) as (e' & He' & Hocc' & Hdist' & Hk'); [lia|].
  rewrite wrap8_small in Hdist' by lia.
  exists e'. split; [|split; [done|split; [lia|done]]].
  rewrite <- He'. f_equal. unfold pos.
  rewrite Zminus_mod_idemp_l. f_equal. lia.
Qed.

Lemma occupancy_keys (es : list entry) :
  occupancy es = Z.of_nat (length (keys_of es)).
Proof.
  induction es as [|e es IH]; simpl; [done|].
  destruct (occupied e); simpl; lia.
Qed.

Lemma elem_keys_of (es : list entry) (k : K) :
  k ∈ keys_of es ↔ ∃ e, e ∈ es ∧ occupied e = true ∧ key e = k.
Proof.
  induction es as [|e es IH]; simpl.
  - rewrite elem_of_nil. split; [done|].
    intros (x & Hx & _). by apply elem_of_nil in Hx.
  - destruct (occupied e) eqn:Hocc.
    + rewrite elem_of_cons, IH. split.
      * intros [->|(x & Hx & Hrest)].
        -- exists e. split; [apply elem_of_cons; by left|done].
        -- exists x. split; [apply elem_of_cons; by right|done].
      * intros (x & Hx & Hox & Hkx). apply elem_of_cons in Hx as [->|Hx].
        -- by left.
        -- right. by exists x.
    + rewrite IH. split.
      * intros (x & Hx & Hrest). exists x.
        split; [apply elem_of_cons; by right|done].
      * intros (x & Hx & Hox & Hkx). apply elem_of_cons in Hx as [->|Hx].
        -- congruence.
        -- by exists x.
Qed.

Lemma NoDup_keys_of (es : list entry) :
  (∀ (i j : nat) e e', es !! i = Some e → es !! j = Some e' →
     occupied e = true → occupied e' = true → key e = key e' → i = j) →
  NoDup (keys_of es).
Proof.
  induction es as [|e es IH]; intros Huniq; simpl; [constructor|].
  assert (Htail : NoDup (keys_of es)).
  { apply IH. intros i j x x' Hi Hj Hox Hox' Hk.
    by injection (Huniq (S i) (S j) x x' Hi Hj Hox Hox' Hk). }
  destruct (occupied e) eqn:Hocc; [|done].
  apply list.NoDup_cons. split; [|done].
  intros Hin. apply elem_keys_of in Hin as (x & Hx & Hox & Hkx).
  apply list_elem_of_lookup in Hx as (j & Hj).
  by specialize (Huniq (S j) O x e Hj eq_refl Hox Hocc Hkx).
Qed.

(** Under the invariant [size] is the number of distinct stored keys. *)
Lemma inv_keys (m : RobinHoodMap) :
  inv m →
  NoDup (keys_of (entries m))
  ∧ (∀ k, present (entries m) k ↔ k ∈ keys_of (entries m))
  ∧ size m = Z.of_nat (length (keys_of (entries m))).
Proof.
  intros ((Hs & Hsz & _) & Hr). split; [|split].
  - apply NoDup_keys_of. intros i j e e' Hi Hj Hocc Hocc' Hk.
    pose proof (lookup_lt_Some _ _ _ Hi). pose proof (lookup_lt_Some _ _ _ Hj).
    enough (Z.of_nat i = Z.of_nat j) by lia.
    apply (robin_unique (entries m) (mask m) _ _ e e'); unfold slot, len;
      rewrite ?Nat2Z.id; (done || lia).
  - intros k. rewrite elem_keys_of, present_elem, list.Exists_exists. done.
  - by rewrite Hsz, occupancy_keys.
Qed.

Lemma last_write_None (kvs : list (K * V)) (k : K) :
  last_write kvs k = None ↔ k ∉ kvs.*1.
Proof.
  induction kvs as [|[k' v'] kvs IH]; simpl.
  - split; [intros _; apply not_elem_of_nil|done].
  - rewrite not_elem_of_cons, <- IH.
    destruct (last_write kvs k); [intuition congruence|].
    destruct (decide (k' = k)); intuition congruence.
Qed.

(** A sequence of [Put]s, with keys repeated or not, leaves each key with
    the value written last. *)
Lemma put_all_last (kvs : list (K * V)) :
  ∀ m : RobinHoodMap,
    inv m →
    ∃ m', (∃ fuel0, ∀ fuel, (fuel0 ≤ fuel)%nat → put_all fuel kvs m = Some m')
          ∧ inv m'
          ∧ (∀ k v, holds (entries m') k v
                    ↔ match last_write kvs k with
                      | Some v' => v = v'
                      | None => holds (entries m) k v
                      end).
Proof.
  induction kvs as [|[k0 v0] kvs IH]; intros m Hinv.
  - exists m. split; [by exists O|]. split; [done|]. done.
  - destruct (Put_inv (S (2 * length (entries m))) m k0 v0 Hinv)
      as (m1 & Hrun1 & Hinv1 & Hview1 & _); [lia|].
    destruct (IH m1 Hinv1) as (m' & (fuel0 & Hrun') & Hinv' & Hview').
    exists m'. split; [|split; [done|]].
    + exists (max fuel0 (S (2 * length (entries m)))). intros fuel Hfuel.
      simpl. rewrite (Put_mono _ fuel _ _ _ _ Hrun1) by lia.
      apply Hrun'. lia.
    + intros k v. rewrite Hview'. simpl.
      destruct (last_write kvs k) as [v'|] eqn:Hlast; [done|].
      rewrite Hview1. destruct (decide (k0 = k)) as [->|Hne].
      * split; [by intros [[_ ->]|[? _]]|intros ->; by left].
      * split; [by intros [[-> _]|[_ ?]]|intros ?; right; by split].
Qed.

(** X12. For every sequence of [Put] calls on a fresh table, of any length
    and with keys repeated or not, all the calls return, [Size] is the
    number of distinct keys, [Get] on a key of the sequence returns the
    value written last for it, and [Get] on any other key reports
    not-found. *)
Theorem put_sequence_last_write (kvs : list (K * V)) :
  ∃ m, (∃ fuel0, ∀ fuel, (fuel0 ≤ fuel)%nat →
                         put_all fuel kvs NewRobinHoodMap = Some m)
       ∧ (Size m).1 = Z.of_nat (length (remove_dups kvs.*1))
       ∧ ∀ k fuel, (length (entries m) ≤ fuel)%nat →
           Get fuel m k
           = Some (match last_write kvs k with
                   | Some v => (v, true)
                   | None => (zeroV, false)
                   end, m).
Proof.
  destruct (put_all_last kvs NewRobinHoodMap inv_new)
    as (m & Hrun & Hinv & Hview).
  exists m. split; [done|].
  assert (Hpres : ∀ k, present (entries m) k ↔ k ∈ kvs.*1).
  { intros k. split.
    - intros Hp. apply present_holds in Hp as (v & Hv).
      apply Hview in Hv.
      destruct (decide (k ∈ kvs.*1)) as [|Hnot]; [done|].
      apply last_write_None in Hnot. rewrite Hnot in Hv.
      by apply holds_make in Hv.
    - intros Hin. destruct (last_write kvs k) as [v|] eqn:Hlast.
      + apply (holds_present _ _ v), Hview. by rewrite Hlast.
      + by apply last_write_None in Hlast. }
  split.
  - destruct (inv_keys m Hinv) as (Hnd & Hkeys & Hsize).
    unfold Size. simpl. rewrite Hsize. f_equal.
    apply Permutation_length, NoDup_Permutation;
      [done|apply list.NoDup_remove_dups|].
    intros k. by rewrite <- Hkeys, Hpres, list.elem_of_remove_dups.
  - intros k fuel Hfuel.
    destruct (last_write kvs k) as [v|] eqn:Hlast.
    + apply Get_holds; [done| |done]. apply Hview. by rewrite Hlast.
    + apply Get_absent; [apply Hinv| |done].
      rewrite Hpres. by apply last_write_None.
Qed.

(** ** Stored distances in every reachable state *)

Lemma disp_pos (n h d : Z) : 0 ≤ d < n → disp n h (pos n h d) = d.
Proof.
  intros Hd. unfold disp, pos. rewrite Zminus_mod_idemp_l.
  replace (h + d - h) with d by lia. by apply Z.mod_small.
Qed.

Lemma wrap8_mod (n x : Z) : Z.divide 256 n → wrap8 (x mod n) = wrap8 x.
Proof. intros Hn. unfold wrap8. by apply Z.mod_mod_divide. Qed.

Lemma disp_next (n h p : Z) :
  Z.divide 256 n →
  wrap8 (disp n h (pos n p 1)) = wrap8 (wrap8 (disp n h p) + 1).
Proof.
  intros Hn. unfold disp, pos.
  rewrite Zminus_mod_idemp_l, wrap8_succ, wrap8_mod by done.
  rewrite <- (wrap8_succ ((p - h) mod n)), wrap8_mod, wrap8_succ by done.
  f_equal. lia.
Qed.

Lemma disp_prev (n h p : Z) :
  Z.divide 256 n →
  wrap8 (disp n h p) = wrap8 (wrap8 (disp n h (pos n p 1)) - 1).
Proof.
  intros Hn. unfold disp, pos.
  rewrite Zminus_mod_idemp_l, !wrap8_mod by done.
  unfold wrap8. rewrite Zminus_mod_idemp_l. f_equal. lia.
Qed.

Lemma shape_divide (es : list entry) (msk : Z) :
  shape es msk → 256 ≤ len es → Z.divide 256 (len es).
Proof.
  intros (n & Hn & Hlen & _) H256. rewrite Hlen in *.
  assert (8 ≤ n).
  { destruct (Z.lt_ge_cases n 8) as [Hlt|]; [|done].
    pose proof (Z.pow_le_mono_r 2 n 7 ltac:(lia) ltac:(lia)). lia. }
  exists (2 ^ (n - 8)). change 256 with (2 ^ 8).
  rewrite <- Z.pow_add_r by lia. f_equal. lia.
Qed.

Lemma robin_distance_mod (es : list entry) (msk : Z) :
  robin es msk → distance_mod es msk.
Proof.
  intros Hr p e Hp He Hocc.
  destruct (Hr p e Hp He Hocc) as (d & Hd & -> & -> & _).
  by rewrite disp_pos.
Qed.

Lemma distance_mod_store (es : list entry) (msk i : Z) (x : entry) :
  distance_mod es msk → 0 ≤ i < len es →
  (occupied x = true →
   distance x = wrap8 (disp (len es) (home msk (key x)) i)) →
  distance_mod (store es i x) msk.
Proof.
  intros Hd Hi Hx p e Hp He Hocc. rewrite len_store in *.
  destruct (decide (p = i)) as [->|Hne].
  - rewrite slot_store_eq in He by done. injection He as <-. by apply Hx.
  - rewrite slot_store_ne in He by lia. by apply Hd.
Qed.

Lemma put_probe_dmod (fuel : nat) :
  ∀ (es : list entry) (msk i : Z) (ck : K) (cv : V) (cd : Z)
    (es' : list entry) (fresh : bool),
    shape es msk → Z.divide 256 (len es) → distance_mod es msk →
    0 ≤ i < len es → cd = wrap8 (disp (len es) (home msk ck) i) →
    put_probe fuel es msk i ck cv cd = Some (es', fresh) →
    length es' = length es ∧ distance_mod es' msk.
Proof.
  induction fuel as [|fuel IH];
    intros es msk i ck cv cd es' fresh Hs Hdiv Hd Hi Hcd Hrun;
    simpl in Hrun; [done|].
  pose proof (shape_len _ _ Hs) as H8.
  destruct (slot es i) as [e|] eqn:He; [|done].
  destruct (occupied e) eqn:Hocc; simpl in Hrun.
  2:{ injection Hrun as <- <-. split; [apply length_store|].
      by apply distance_mod_store. }
  destruct (decide (key e = ck)) as [Hk|Hk].
  { injection Hrun as <- <-. split; [apply length_store|].
    apply distance_mod_store; [done|done|]. intros _. simpl. by apply Hd. }
  rewrite (shape_next es) in Hrun by done.
  assert (Hi' : 0 ≤ pos (len es) i 1 < len es) by (apply pos_range; lia).
  destruct (distance e <? cd).
  - destruct (IH (store es i (mkEntry ck cv cd true)) msk (pos (len es) i 1)
                (key e) (value e) (wrap8 (distance e + 1)) es' fresh)
      as (Hlen & Hd').
    + by apply shape_store.
    + by rewrite len_store.
    + apply distance_mod_store; [done|done|]. by intros _.
    + by rewrite len_store.
    + rewrite len_store, (Hd i e Hi He Hocc). symmetry. by apply disp_next.
    + done.
    + split; [by rewrite Hlen, length_store|done].
  - apply (IH es msk (pos (len es) i 1) ck cv (wrap8 (cd + 1)) es' fresh);
      try done.
    rewrite Hcd. symmetry. by apply disp_next.
Qed.

Lemma distance_mod_make (n msk : Z) : distance_mod (make n) msk.
Proof. apply robin_distance_mod, robin_make. Qed.

Lemma reinsert_preserves (P : RobinHoodMap → Prop)
    (put : RobinHoodMap → K → V → option RobinHoodMap) :
  (∀ m k v m', P m → put m k v = Some m' → P m') →
  ∀ old acc r, P acc → reinsert put old acc = Some r → P r.
Proof.
  intros Hput old. induction old as [|e old IH]; intros acc r Hacc Hrun;
    simpl in Hrun.
  - by injection Hrun as <-.
  - destruct (occupied e); [|by apply (IH acc)].
    destruct (put acc (key e) (value e)) as [m1|] eqn:Hm1; [|done].
    apply (IH m1); [|done]. by apply (Hput acc (key e) (value e)).
Qed.

Lemma Put_dmod (fuel : nat) :
  ∀ m k v m', large_ok m → Put fuel m k v = Some m' → large_ok m'.
Proof.
  induction fuel as [|fuel IH]; intros m k v m' (Hs & H256 & Hd) Hrun;
    [done|].
  rewrite Put_place in Hrun.
  assert (Hm1 : ∃ m1, (if over_load (size m) (len (entries m))
                       then resize_with (Put fuel) m else Some m) = Some m1
                      ∧ large_ok m1).
  { destruct (over_load _ _).
    - destruct (resize_with (Put fuel) m) as [m1|] eqn:Hres; [|done].
      exists m1. split; [done|]. unfold resize_with in Hres.
      apply (reinsert_preserves large_ok (Put fuel) IH _ _ _) in Hres;
        [done|].
      split; [by apply (shape_double _ (mask m))|]. split.
      + simpl. rewrite len_make; lia.
      + apply distance_mod_make.
    - by exists m. }
  destruct Hm1 as (m1 & Hm1 & Hs1 & H256' & Hd1).
  rewrite Hm1 in Hrun. unfold place in Hrun.
  destruct (put_probe _ _ _ _ _ _ _) as [[es fresh]|] eqn:Hp; [|done].
  injection Hrun as <-.
  destruct (put_probe_dmod _ _ _ _ _ _ _ _ _ Hs1
              (shape_divide _ _ Hs1 H256') Hd1
              (home_range _ _ k Hs1)
              ltac:(fold (home (mask m1) k);
                    rewrite <- (home_pos (entries m1)) at 2 by done;
                    rewrite disp_pos;
                    [reflexivity|pose proof (shape_len _ _ Hs1); lia])
              Hp) as (Hlen & Hd').
  assert (Hlen' : len es = len (entries m1)) by (unfold len; by rewrite Hlen).
  split; [by apply (shape_same_length (entries m1))|].
  split; [simpl; lia|done].
Qed.

Lemma shift_back_dmod (fuel : nat) :
  ∀ (es : list entry) (msk i : Z) (es' : list entry),
    shape es msk → Z.divide 256 (len es) → distance_mod es msk →
    0 ≤ i < len es →
    shift_back fuel es msk i (pos (len es) i 1) = Some es' →
    length es' = length es ∧ distance_mod es' msk.
Proof.
  induction fuel as [|fuel IH]; intros es msk i es' Hs Hdiv Hd Hi Hrun;
    simpl in Hrun; [done|].
  pose proof (shape_len _ _ Hs) as H8.
  assert (Hn : 0 ≤ pos (len es) i 1 < len es) by (apply pos_range; lia).
  destruct (slot es (pos (len es) i 1)) as [ne|] eqn:Hne; [|done].
  destruct (slot es i) as [ei|] eqn:Hei; [|done].
  destruct (negb (occupied ne) || (distance ne =? 0)) eqn:Hstop.
  - injection Hrun as <-. split; [apply length_store|].
    by apply distance_mod_store.
  - apply orb_false_iff in Hstop as [Hocc _]. apply negb_false_iff in Hocc.
    rewrite (shape_next es) in Hrun by done.
    set (ne' := mkEntry _ _ _ _) in Hrun.
    destruct (IH (store es i ne') msk (pos (len es) i 1) es')
      as (Hlen & Hd').
    + by apply shape_store.
    + by rewrite len_store.
    + apply distance_mod_store; [done|done|]. intros _. simpl.
      rewrite (Hd _ ne Hn Hne Hocc). symmetry. by apply disp_prev.
    + by rewrite len_store.
    + by rewrite len_store.
    + split; [by rewrite Hlen, length_store|done].
Qed.

Lemma remove_probe_dmod (fuel : nat) :
  ∀ (es : list entry) (msk i : Z) (k : K) (d : Z) (b : bool)
    (es' : list entry),
    shape es msk → Z.divide 256 (len es) → distance_mod es msk →
    0 ≤ i < len es →
    remove_probe fuel es msk i k d = Some (b, es') →
    length es' = length es ∧ distance_mod es' msk.
Proof.
  induction fuel as [|fuel IH]; intros es msk i k d b es' Hs Hdiv Hd Hi Hrun;
    simpl in Hrun; [done|].
  pose proof (shape_len _ _ Hs) as H8.
  destruct (slot es i) as [e|] eqn:He; [|done].
  destruct (negb (occupied e) || (distance e <? d)).
  { by injection Hrun as <- <-. }
  rewrite (shape_next es) in Hrun by done.
  destruct (decide (key e = k)).
  - destruct (shift_back _ _ _ _ _) as [es1|] eqn:Hsh; [|done].
    injection Hrun as <- <-. by apply (shift_back_dmod fuel es msk i).
  - apply (IH es msk (pos (len es) i 1) k (wrap8 (d + 1)) b es'); try done.
    apply pos_range. lia.
Qed.

Lemma reachable_distance_mod (m : RobinHoodMap) :
  reachable m → distance_mod (entries m) (mask m).
Proof.
  intros Hm.
  induction Hm as [|m fuel k v m' Hm IH Hrun|m fuel k r m' Hm IH Hrun
                   |m fuel k b m' Hm IH Hrun|m _ IH|m _ IH].
  - apply distance_mod_make.
  - pose proof (reachable_ok m Hm) as Hok. pose proof Hok as (Hs & _).
    destruct (Z.lt_ge_cases (len (entries m)) 256) as [Hlt|Hge].
    + apply robin_distance_mod, reachable_robin;
        [by apply (reach_put m fuel k v)|].
      destruct (Put_ok (max fuel (2 * length (entries m) + 1)) m k v Hok)
        as (m2 & Hrun2 & _ & _ & Hlen2); [lia|].
      rewrite (Put_mono fuel _ _ _ _ _ Hrun) in Hrun2 by lia.
      injection Hrun2 as <-.
      destruct Hs as (n & Hn & Hlen & _). rewrite Hlen in *.
      assert (n ≤ 7).
      { destruct (Z.lt_ge_cases n 8) as [|Hn8]; [lia|].
        pose proof (Z.pow_le_mono_r 2 8 n ltac:(lia) Hn8). lia. }
      pose proof (Z.pow_le_mono_r 2 n 7 ltac:(lia) ltac:(lia)). lia.
    + by apply (Put_dmod fuel m k v m').
  - unfold Get in Hrun. destruct (get_probe _ _ _ _ _ _); [|done].
    by injection Hrun as _ <-.
  - pose proof (reachable_ok m Hm) as Hok. pose proof Hok as (Hs & _).
    destruct (Remove_ok (max fuel (length (entries m))) m k Hok)
      as (b2 & m2 & Hrun2 & _ & Hlen2 & Hmask2 & _); [lia|].
    rewrite (Remove_mono fuel _ _ _ _ Hrun) in Hrun2 by lia.
    injection Hrun2 as <- <-.
    destruct (Z.le_gt_cases (len (entries m)) 256) as [Hle|Hgt].
    + apply robin_distance_mod, reachable_robin;
        [by apply (reach_remove m fuel k b)|].
      unfold len in *. lia.
    + unfold Remove in Hrun.
      destruct (remove_probe _ _ _ _ _ _) as [[b' es']|] eqn:Hp; [|done].
      injection Hrun as <- <-. simpl.
      apply (remove_probe_dmod _ _ _ _ _ _ _ _ Hs) in Hp;
        [by destruct Hp|apply (shape_divide _ (mask m)); (done || lia)
         |done|by apply home_range].
  - done.
  - apply distance_mod_make.
Qed.

(** X13. In every reachable state, whatever the size of the table, the
    distance stored in an occupied slot is the displacement of the slot from
    the home bucket of its key, reduced modulo 256. *)
Theorem stored_distance_mod_256 (m : RobinHoodMap) (p : Z) (e : entry) :
  reachable m →
  0 ≤ p < len (entries m) → slot (entries m) p = Some e →
  occupied e = true →
  distance e
  = ((p - Z.land (hash (key e)) (mask m)) mod len (entries m)) mod 256.
Proof. intros Hm. by apply (reachable_distance_mod m Hm). Qed.

(** ** Put followed by Get in every reachable state *)

(** The probing loop of [Put] leaves the key where a search finds it.  [d]
    is the number of steps the loop has made with the key still in hand,
    and a vacant slot lies [g] steps ahead. *)
Lemma put_probe_get (g : nat) :
  ∀ (es : list entry) (msk : Z) (d : Z) (k : K) (v : V) (fuel : nat),
    shape es msk → distance_mod es msk →
    0 ≤ d → d + Z.of_nat g < len es →
    probe_ok es msk k d →
    vacant es (pos (len es) (home msk k) (d + Z.of_nat g)) →
    (g < fuel)%nat →
    ∃ es' fresh d' e',
      put_probe fuel es msk (pos (len es) (home msk k) d) k v (wrap8 d)
      = Some (es', fresh)
      ∧ length es' = length es
      ∧ d ≤ d' < len es
      ∧ probe_ok es' msk k d'
      ∧ slot es' (pos (len es) (home msk k) d') = Some e'
      ∧ occupied e' = true ∧ key e' = k ∧ value e' = v
      ∧ distance e' = wrap8 d'.
Proof.
  induction g as [|g IH]; intros es msk d k v fuel Hs Hd Hd0 Hdg Hprobe Hvac Hfuel;
    (destruct fuel as [|fuel]; [lia|]); simpl.
  - rewrite Z.add_0_r in Hvac. destruct Hvac as (e & He & Hocc).
    rewrite He, Hocc. simpl.
    assert (Hi : 0 ≤ pos (len es) (home msk k) d < len es)
      by (apply pos_range; lia).
    eexists _, true, d, _. split; [done|]. split; [apply length_store|].
    split; [lia|]. split; [|by rewrite slot_store_eq].
    apply probe_ok_store; [done|done|].
    intros j Hj Heq. apply pos_inj in Heq; lia.
  - assert (Hi : 0 ≤ pos (len es) (home msk k) d < len es)
      by (apply pos_range; lia).
    destruct (slot_is_Some es _ Hi) as (e & He). rewrite He.
    destruct (occupied e) eqn:Hocc; simpl.
    2:{ eexists _, true, d, _. split; [done|]. split; [apply length_store|].
        split; [lia|]. split; [|by rewrite slot_store_eq].
        apply probe_ok_store; [done|done|].
        intros j Hj Heq. apply pos_inj in Heq; lia. }
    destruct (decide (key e = k)) as [Hk|Hk].
    { eexists _, false, d, _. split; [done|]. split; [apply length_store|].
      split; [lia|]. split.
      - apply probe_ok_store; [done|done|].
        intros j Hj Heq. apply pos_inj in Heq; lia.
      - rewrite slot_store_eq by done. repeat (split; [done|]). simpl.
        rewrite (Hd _ e Hi He Hocc), Hk, disp_pos by lia. done. }
    rewrite (shape_next es), pos_pos by done.
    destruct (distance e <? wrap8 d) eqn:Hcmp.
    + set (c := mkEntry k v (wrap8 d) true).
      set (i := pos (len es) (home msk k) d) in *.
      destruct (put_probe_basic g (store es i c) msk
                  (pos (len es) (home msk k) (d + 1)) (key e) (value e)
                  (wrap8 (distance e + 1)) fuel)
        as (es' & fresh & Hrun & Hlen & _ & _ & Hframe).
      * by apply shape_store.
      * rewrite len_store. apply pos_range. lia.
      * rewrite len_store. lia.
      * rewrite len_store, pos_pos.
        replace (d + 1 + Z.of_nat g) with (d + Z.of_nat (S g)) by lia.
        apply vacant_store_ne; [lia|apply pos_range; lia| |done].
        unfold i. intros Heq. apply pos_inj in Heq; lia.
      * lia.
      * rewrite len_store in Hframe.
        assert (Hout : ∀ j, 0 ≤ j ≤ d →
                  slot es' (pos (len es) (home msk k) j)
                  = slot (store es i c) (pos (len es) (home msk k) j)).
        { intros j Hj. apply Hframe; [apply pos_range; lia|].
          intros t Ht. rewrite pos_pos. intros Heq.
          apply pos_inj in Heq; lia. }
        exists es', fresh, d, c. split; [done|].
        split; [by rewrite Hlen, length_store|]. split; [lia|].
        split.
        -- intros j Hj.
           replace (len es') with (len es)
             by (unfold len; by rewrite Hlen, length_store).
           rewrite Hout by lia.
           destruct (Hprobe j Hj) as (x & Hx & Hrest). exists x.
           split; [|done]. rewrite slot_store_ne; [done|lia| |].
           ++ pose proof (pos_range (len es) (home msk k) j). lia.
           ++ unfold i. intros Heq. apply pos_inj in Heq; lia.
        -- rewrite Hout by lia. fold i. rewrite slot_store_eq by done. done.
    + apply Z.ltb_ge in Hcmp.
      destruct (IH es msk (d + 1) k v fuel)
        as (es' & fresh & d' & e' & Hrun & Hlen & Hd' & Hrest);
        [done|done|lia|lia| | |lia|].
      * intros j Hj. destruct (decide (j = d)) as [->|Hne].
        -- exists e. done.
        -- apply Hprobe. lia.
      * by replace (d + 1 + Z.of_nat g) with (d + Z.of_nat (S g)) by lia.
      * rewrite wrap8_succ. exists es', fresh, d', e'.
        split; [done|]. split; [done|]. split; [lia|done].
Qed.

Lemma place_get (fuel fuel' : nat) (m1 m' : RobinHoodMap) (k : K) (v : V) :
  ok m1 → distance_mod (entries m1) (mask m1) →
  place fuel m1 k v = Some m' → (length (entries m') ≤ fuel')%nat →
  Get fuel' m' k = Some (v, true, m').
Proof.
  intros Hok Hd Hrun Hfuel'. pose proof Hok as (Hs & _).
  pose proof (shape_len _ _ Hs) as H8.
  pose proof (home_range _ _ k Hs) as Hh.
  destruct (vacant_ahead (entries m1) (mask m1) _ Hs (ok_room m1 Hok) Hh)
    as (g & Hg & Hvac).
  fold (home (mask m1) k) in Hvac.
  rewrite <- (home_pos (entries m1)) in Hvac by done. rewrite pos_pos in Hvac.
  destruct (put_probe_get g (entries m1) (mask m1) 0 k v (max fuel (S g)))
    as (es' & fresh & d' & e' & Hrun' & Hlen & Hd' & Hprobe & He' & Hocc
        & Hk & Hv & Hdist); [done|done|lia|lia|intros j Hj; lia|done|lia|].
  unfold place in Hrun. fold (home (mask m1) k) in Hrun.
  rewrite <- (home_pos (entries m1)) in Hrun by done.
  change 0 with (wrap8 0) in Hrun at 2.
  destruct (put_probe fuel _ _ _ _ _ _) as [[es fr]|] eqn:Hp; [|done].
  rewrite (put_probe_mono fuel _ _ _ _ _ _ _ _ Hp) in Hrun' by lia.
  injection Hrun' as -> ->. injection Hrun as <-.
  assert (Hlen' : len es' = len (entries m1)) by (unfold len; by rewrite Hlen).
  assert (Hs' : shape es' (mask m1))
    by (by apply (shape_same_length (entries m1))).
  unfold Get. simpl. fold (home (mask m1) k).
  rewrite <- (home_pos (entries m1)) by done. rewrite <- Hlen'.
  rewrite <- Hlen' in He'.
  change 0 with (wrap8 0) at 2.
  rewrite (get_probe_found (Z.to_nat d') es' (mask m1) k d' 0 e');
    [by rewrite Hv|done|lia|lia|done|done|done|done|done|].
  simpl in Hfuel'. unfold len in *. lia.
Qed.

Lemma resize_distance_mod (fuel : nat) (m m1 : RobinHoodMap) :
  reachable m → resize fuel m = Some m1 →
  distance_mod (entries m1) (mask m1).
Proof.
  intros Hm Hrun. pose proof (reachable_ok m Hm) as Hok.
  destruct (Z.le_gt_cases (len (entries m)) 256) as [Hle|Hgt].
  - destruct (resize_inv (max fuel (2 * length (entries m))) m
                (reachable_inv m Hm Hle)) as (m2 & Hrun2 & (_ & Hr2) & _);
      [lia|].
    rewrite (resize_mono fuel _ _ _ Hrun) in Hrun2 by lia.
    injection Hrun2 as <-. by apply robin_distance_mod.
  - unfold resize, resize_with in Hrun. destruct Hok as (Hs & _).
    apply (reinsert_preserves large_ok (Put fuel) (Put_dmod fuel)) in Hrun;
      [apply Hrun|].
    split; [by apply (shape_double _ (mask m))|]. split.
    + simpl. rewrite len_make; lia.
    + apply distance_mod_make.
Qed.

(** X14. In every reachable state, whatever the size of the table, a
    [Put(k, v)] that returns is followed by a [Get(k)] that returns
    [(v, true)]. *)
Theorem put_then_get_same_key (m : RobinHoodMap) (k : K) (v : V)
    (fuel fuel' : nat) (m' : RobinHoodMap) :
  reachable m → Put fuel m k v = Some m' →
  (length (entries m') ≤ fuel')%nat →
  Get fuel' m' k = Some (v, true, m').
Proof.
  intros Hm Hrun Hfuel'. pose proof (reachable_ok m Hm) as Hok.
  destruct fuel as [|fuel]; [done|]. rewrite Put_place in Hrun.
  destruct (over_load (size m) (len (entries m))).
  - destruct (resize_with (Put fuel) m) as [m1|] eqn:Hres; [|done].
    apply (place_get (S fuel) fuel' m1 m' k v); [| |done|done].
    + by apply (resize_ok fuel m).
    + by apply (resize_distance_mod fuel m).
  - apply (place_get (S fuel) fuel' m m' k v); [done| |done|done].
    by apply reachable_distance_mod.
Qed.

(** ** Put followed by Remove *)

(** X15. [Remove] undoes [Put] of a new key: if the table after the [Put]
    still has at most 256 slots, [Remove] of the key returns [true], [Size]
    is back to what it was, and [Get] returns for every key what it returned
    before the [Put]. *)
Theorem put_then_remove_restores (m : RobinHoodMap) (k : K) (v : V)
    (fuel : nat) (m' : RobinHoodMap) :
  reachable m → ¬ present (entries m) k → Put fuel m k v = Some m' →
  len (entries m') ≤ 256 →
  ∃ m'', (∀ fuel', (length (entries m') ≤ fuel')%nat →
                   Remove fuel' m' k = Some (true, m''))
         ∧ (Size m'').1 = (Size m).1
         ∧ ∀ k' fuel1 fuel2 r, Get fuel1 m k' = Some (r, m) →
                               (length (entries m'') ≤ fuel2)%nat →
                               Get fuel2 m'' k' = Some (r, m'').
Proof.
  intros Hm Habs Hrun H256'.
  pose proof (reachable_ok m Hm) as Hok.
  assert (H256 : len (entries m) ≤ 256).
  { destruct (Put_ok (max fuel (2 * length (entries m) + 1)) m k v Hok)
      as (m2 & Hrun2 & _ & _ & Hlen2); [lia|].
    rewrite (Put_mono fuel _ _ _ _ _ Hrun) in Hrun2 by lia.
    injection Hrun2 as <-. pose proof (len_nonneg (entries m)). lia. }
  pose proof (reachable_inv m Hm H256) as Hinv.
  destruct (Put_inv (max fuel (2 * length (entries m) + 1)) m k v Hinv)
    as (m2 & Hrun2 & Hinv' & Hview & _ & Hnew & _); [lia|].
  rewrite (Put_mono fuel _ _ _ _ _ Hrun) in Hrun2 by lia.
  injection Hrun2 as <-.
  destruct (Remove_inv (length (entries m')) m' k Hinv' H256')
    as (found & m'' & Hrem & Hinv'' & Hlen'' & _ & Hfound & Hsize'' & Hview'');
    [done|].
  assert (found = true) as ->.
  { apply Hfound, (holds_present _ _ v), Hview. by left. }
  exists m''. split; [|split].
  - intros fuel' Hfuel'. by apply (Remove_mono _ fuel' _ _ _ Hrem).
  - unfold Size. simpl. rewrite Hsize'', (Hnew Habs). lia.
  - intros k' fuel1 fuel2 r Hget Hfuel2.
    apply (Get_transfer fuel1 fuel2 m m'' k' r); try done.
    intros v'. rewrite Hview'', Hview. split.
    + intros Hv'. split; [|right; split; [|done]];
        intros ->; apply Habs; by apply (holds_present _ _ v').
    + by intros [Hne [[? _]|[_ ?]]].
Qed.

(** ** The load factor *)

(** X16. In every reachable state [Size] is between 0 and three quarters of
    the number of slots, so the slot array is never full: some slot is
    unoccupied, and a probe sequence started at any slot meets an unoccupied
    slot within one pass. *)
Theorem load_factor_bound (m : RobinHoodMap) :
  reachable m →
  0 ≤ (Size m).1
  ∧ 4 * (Size m).1 ≤ 3 * len (entries m)
  ∧ ∀ i, 0 ≤ i < len (entries m) →
      ∃ g : nat, Z.of_nat g < len (entries m)
                 ∧ vacant (entries m) (pos (len (entries m)) i (Z.of_nat g)).
Proof.
  intros Hm. pose proof (reachable_ok m Hm) as Hok.
  pose proof Hok as (Hs & Hsize & Hload).
  pose proof (occupancy_le (entries m)) as Hocc. simpl.
  split; [lia|]. split; [done|]. intros i Hi.
  by apply (vacant_ahead (entries m) (mask m) i Hs (ok_room m Hok) Hi).
Qed.

End RobinHood.


(** * A concrete instance: integer keys hashed by themselves *)

(** Keys and values are integers, the zero value of both is [0], and the
    digest of a key is the key itself.  With this digest every multiple of
    512 has home bucket 0 in every table of at most 512 slots. *)

Definition id_sum64 (k : Z) : Z := k.

Definition ZMap : Type := RobinHoodMap (K:=Z) (V:=Z).

Definition newZ : ZMap := NewRobinHoodMap 0 0.

Definition run_or_new (r : option ZMap) : ZMap :=
  match r with Some m => m | None => newZ end.

(** Three keys in a table of 8 slots. *)
Definition three_kvs : list (Z * Z) := [(1, 10); (2, 20); (9, 90)].
Definition three : ZMap := run_or_new (put_all 0 0 id_sum64 20 three_kvs newZ).

(** Six keys fill the table of 8 slots up to the load factor threshold. *)
Definition six_kvs : list (Z * Z) :=
  [(0, 0); (1, 10); (2, 20); (3, 30); (4, 40); (5, 50)].
Definition six : ZMap := run_or_new (put_all 0 0 id_sum64 20 six_kvs newZ).

(** [colliding n] is [n] pairs whose keys [0, 512, 1024, ...] all have home
    bucket 0. *)
Definition colliding (n : nat) : list (Z * Z) :=
  (λ i : nat, (512 * Z.of_nat i, Z.of_nat i)) <$> seq 0 n.

(** The table after [Put] of 257 colliding keys: 512 slots, the keys in
    slots 0 to 256. *)
Definition crowded : ZMap :=
  run_or_new (put_all 0 0 id_sum64 1100 (colliding 257) newZ).

(** [crowded] after [Remove(0)]. *)
Definition crowded_removed : ZMap :=
  match Remove id_sum64 600 crowded 0 with
  | Some (_, m) => m
  | None => newZ
  end.

(** [crowded_removed] after [Put(131072, 777)]; key 131072 = 512 * 256 is
    the last of the 257 colliding keys. *)
Definition crowded_again : ZMap :=
  run_or_new (Put 0 0 id_sum64 1100 crowded_removed 131072 777).

Lemma three_run : put_all 0 0 id_sum64 20 three_kvs newZ = Some three.
Proof. vm_compute. reflexivity. Qed.

Lemma three_reachable : reachable 0 0 id_sum64 three.
Proof. exact (put_all_reachable 0 0 id_sum64 _ _ _ _ (reach_new 0 0 id_sum64) three_run). Qed.

Lemma six_run : put_all 0 0 id_sum64 20 six_kvs newZ = Some six.
Proof. vm_compute. reflexivity. Qed.

Lemma six_reachable : reachable 0 0 id_sum64 six.
Proof. exact (put_all_reachable 0 0 id_sum64 _ _ _ _ (reach_new 0 0 id_sum64) six_run). Qed.

Lemma crowded_run :
  put_all 0 0 id_sum64 1100 (colliding 257) newZ = Some crowded.
Proof. vm_compute. reflexivity. Qed.

Lemma crowded_reachable : reachable 0 0 id_sum64 crowded.
Proof. exact (put_all_reachable 0 0 id_sum64 _ _ _ _ (reach_new 0 0 id_sum64) crowded_run). Qed.

Lemma crowded_removed_run :
  Remove id_sum64 600 crowded 0 = Some (true, crowded_removed).
Proof. vm_compute. reflexivity. Qed.

Lemma crowded_removed_reachable : reachable 0 0 id_sum64 crowded_removed.
Proof.
  exact (reach_remove 0 0 id_sum64 _ _ _ _ _ crowded_reachable crowded_removed_run).
Qed.

Lemma crowded_again_run :
  Put 0 0 id_sum64 1100 crowded_removed 131072 777 = Some crowded_again.
Proof. vm_compute. reflexivity. Qed.

Lemma crowded_again_reachable : reachable 0 0 id_sum64 crowded_again.
Proof.
  exact (reach_put 0 0 id_sum64 _ _ _ _ _ crowded_removed_reachable crowded_again_run).
Qed.

Lemma three_present : present (entries three) 9.
Proof. apply present_elem. vm_compute. by repeat constructor. Qed.

Lemma three_absent : ¬ present (entries three) 7.
Proof.
  intros H. apply present_elem in H. revert H.
  apply (bool_decide_unpack (¬ _)). vm_compute. exact I.
Qed.


(** Keys 1 and 9 share home bucket 1 in the table of 8 slots.  Key 9 finds
    slot 1 taken by key 1 (both at distance 0, no swap), reaches slot 2 at
    distance 1 and takes it from key 2 (distance 0), which moves on to slot 3
    at distance 1. *)
Example three_layout :
  slot (entries three) 1 = Some (mkEntry 1 10 0 true)
  ∧ slot (entries three) 2 = Some (mkEntry 9 90 1 true)
  ∧ slot (entries three) 3 = Some (mkEntry 2 20 1 true)
  ∧ (Size three).1 = 3
  ∧ Get 0 id_sum64 8 three 1 = Some (10, true, three)
  ∧ Get 0 id_sum64 8 three 9 = Some (90, true, three)
  ∧ Get 0 id_sum64 8 three 2 = Some (20, true, three).
Proof. vm_compute. repeat split; reflexivity. Qed.

(** One hundred keys [0 .. 99] inserted into a fresh table, then key 50
    removed. *)
Definition hundred_kvs : list (Z * Z) :=
  (λ i : nat, (Z.of_nat i, Z.of_nat i)) <$> seq 0 100.
Definition hundred : ZMap :=
  run_or_new (put_all 0 0 id_sum64 600 hundred_kvs newZ).
Definition hundred_removed : ZMap :=
  match Remove id_sum64 300 hundred 50 with
  | Some (_, m) => m
  | None => newZ
  end.

Example hundred_keys :
  put_all 0 0 id_sum64 600 hundred_kvs newZ = Some hundred
  ∧ (Size hundred).1 = 100
  ∧ len (entries hundred) = 256
  ∧ forallb (λ kv : Z * Z,
               match Get 0 id_sum64 300 hundred kv.1 with
               | Some (v, true, _) => v =? kv.2
               | _ => false
               end)
            hundred_kvs = true
  ∧ Remove id_sum64 300 hundred 50 = Some (true, hundred_removed)
  ∧ Get 0 id_sum64 300 hundred_removed 50 = Some (0, false, hundred_removed)
  ∧ Get 0 id_sum64 300 hundred_removed 49 = Some (49, true, hundred_removed)
  ∧ Get 0 id_sum64 300 hundred_removed 51 = Some (51, true, hundred_removed)
  ∧ (Size hundred_removed).1 = 99.
Proof. vm_compute. repeat split; reflexivity. Qed.

(** ** The load factor check comes before the search *)

(** C2 (counterexample). The table [six] holds six keys in 8 slots.  [Put]
    on key 0, which is stored, first doubles the slot array, because
    4 * (6 + 1) > 3 * 8: the result has 16 slots and is not an in-place
    update of [six]. *)
Lemma put_existing_rebuilds_table :
  reachable 0 0 id_sum64 six ∧ present (entries six) 0
  ∧ ∃ m', Put 0 0 id_sum64 40 six 0 99 = Some m'
          ∧ len (entries six) = 8 ∧ len (entries m') = 16
          ∧ ¬ update_in_place six m' 0 99.
Proof.
  split; [apply six_reachable|].
  split; [apply present_elem; vm_compute; by repeat constructor|].
  eexists. split; [vm_compute; reflexivity|].
  split; [reflexivity|]. split; [reflexivity|].
  intros (_ & _ & p & e & _ & _ & _ & _ & Hes).
  apply (f_equal length) in Hes. rewrite length_store in Hes.
  vm_compute in Hes. discriminate.
Qed.

(** ** Probe distances beyond 255 *)

(** The stored distance is a [uint8].  In [crowded] the key 131072 sits in
    slot 256, 256 steps after its home bucket 0, and its stored distance has
    wrapped around to 0. *)

(** C6 (failing input). After [Put] of 257 keys with the same home bucket
    the entry in slot 256 stores distance 0, not its displacement 256. *)
Lemma distance_wraps_past_255 :
  reachable 0 0 id_sum64 crowded
  ∧ len (entries crowded) = 512
  ∧ slot (entries crowded) 256 = Some (mkEntry 131072 256 0 true)
  ∧ Z.land (hash id_sum64 131072) (mask crowded) = 0
  ∧ (256 - 0) mod 512 = 256
  ∧ ¬ distance_exact id_sum64 crowded.
Proof.
  split; [apply crowded_reachable|].
  split; [vm_compute; reflexivity|]. split; [vm_compute; reflexivity|].
  split; [vm_compute; reflexivity|]. split; [reflexivity|].
  intros H.
  assert (Hi : 0 ≤ 256 < len (entries crowded))
    by (vm_compute; split; [discriminate|reflexivity]).
  assert (Hs : slot (entries crowded) 256 = Some (mkEntry 131072 256 0 true))
    by (vm_compute; reflexivity).
  pose proof (H 256 _ Hi Hs eq_refl) as Hd.
  vm_compute in Hd. discriminate Hd.
Qed.

(** C3 (failing input). In [crowded], [Get] finds key 131072.  [Remove(0)]
    returns [true]; its backward shift stops in front of slot 256, whose
    stored distance is 0, and leaves slot 255 unoccupied.  Key 131072 is
    still stored in slot 256, but [Get] no longer finds it and [Remove]
    reports it absent. *)
Lemma remove_loses_other_key :
  reachable 0 0 id_sum64 crowded
  ∧ Get 0 id_sum64 600 crowded 131072 = Some (256, true, crowded)
  ∧ Remove id_sum64 600 crowded 0 = Some (true, crowded_removed)
  ∧ (Size crowded_removed).1 = (Size crowded).1 - 1
  ∧ vacant (entries crowded_removed) 255
  ∧ slot (entries crowded_removed) 256 = Some (mkEntry 131072 256 0 true)
  ∧ Get 0 id_sum64 600 crowded_removed 131072
    = Some (0, false, crowded_removed)
  ∧ Remove id_sum64 600 crowded_removed 131072
    = Some (false, crowded_removed).
Proof.
  split; [apply crowded_reachable|].
  split; [vm_compute; reflexivity|]. split; [apply crowded_removed_run|].
  split; [vm_compute; reflexivity|].
  split; [eexists; split; [vm_compute; reflexivity|reflexivity]|].
  split; [vm_compute; reflexivity|].
  split; vm_compute; reflexivity.
Qed.

(** C9 (failing input). In [crowded_removed] key 131072 is stored in slot
    256 but the search for it ends at the unoccupied slot 255.
    [Put(131072, 777)] therefore stores the key a second time, in slot
    255. *)
Lemma put_stores_key_twice :
  reachable 0 0 id_sum64 crowded_again
  ∧ Put 0 0 id_sum64 1100 crowded_removed 131072 777 = Some crowded_again
  ∧ slot (entries crowded_again) 255 = Some (mkEntry 131072 777 255 true)
  ∧ slot (entries crowded_again) 256 = Some (mkEntry 131072 256 0 true)
  ∧ (Size crowded_again).1 = (Size crowded_removed).1 + 1
  ∧ ¬ keys_unique crowded_again.
Proof.
  split; [apply crowded_again_reachable|].
  split; [apply crowded_again_run|].
  split; [vm_compute; reflexivity|]. split; [vm_compute; reflexivity|].
  split; [vm_compute; reflexivity|].
  intros H.
  assert (Hi : 0 ≤ 255 < len (entries crowded_again))
    by (vm_compute; split; [discriminate|reflexivity]).
  assert (Hj : 0 ≤ 256 < len (entries crowded_again))
    by (vm_compute; split; [discriminate|reflexivity]).
  assert (Hsi : slot (entries crowded_again) 255
                = Some (mkEntry 131072 777 255 true))
    by (vm_compute; reflexivity).
  assert (Hsj : slot (entries crowded_again) 256
                = Some (mkEntry 131072 256 0 true))
    by (vm_compute; reflexivity).
  pose proof (H 255 256 _ _ Hi Hj Hsi Hsj eq_refl eq_refl eq_refl) as Hd.
  discriminate Hd.
Qed.

(** ** The theorems at concrete inputs *)

Definition seven_kvs : list (Z * Z) := six_kvs ++ [(13, 130)].

Lemma put_get_roundtrip_witness :
  ∃ m : ZMap,
    (Size m).1 = 7
    ∧ ∀ fuel, (length (entries m) ≤ fuel)%nat →
              Get 0 id_sum64 fuel m 13 = Some (130, true, m).
Proof.
  destruct (put_get_roundtrip 0 0 id_sum64 seven_kvs)
    as (m & _ & Hsize & Hget).
  { apply (bool_decide_unpack _). vm_compute. exact I. }
  exists m. split; [exact Hsize|].
  intros fuel Hfuel. apply Hget; [|exact Hfuel].
  apply (bool_decide_unpack _). vm_compute. exact I.
Defined.

Lemma put_existing_updates_witness :
  ∃ m' : ZMap,
    Put 0 0 id_sum64 17 three 9 99 = Some m'
    ∧ (Size m').1 = (Size three).1
    ∧ update_in_place three m' 9 99.
Proof.
  destruct (put_existing_updates 0 0 id_sum64 three 9 99)
    as (m' & Hrun & Hsize & _ & Hupd & _).
  - exact three_reachable.
  - vm_compute. discriminate.
  - exact three_present.
  - exists m'. split; [|split; [exact Hsize|]].
    + apply Hrun. vm_compute. lia.
    + apply Hupd. vm_compute. reflexivity.
Defined.

Lemma remove_absent_noop_witness :
  Remove id_sum64 8 three 7 = Some (false, three).
Proof.
  apply (remove_absent_noop 0 0 id_sum64 three 7 8).
  - exact three_reachable.
  - exact three_absent.
  - vm_compute. lia.
Defined.

Lemma clear_resets_witness :
  (Size (Clear 0 0 three)).1 = 0
  ∧ mask (Clear 0 0 three) = 7
  ∧ Get 0 id_sum64 8 (Clear 0 0 three) 9 = Some (0, false, Clear 0 0 three).
Proof.
  destruct (clear_resets 0 0 id_sum64 three three_reachable)
    as (Hsize & _ & _ & Hmask & Hget).
  split; [exact Hsize|]. split; [exact Hmask|].
  apply Hget. lia.
Defined.

Lemma size_counts_occupied_witness :
  size crowded_again = occupancy (entries crowded_again).
Proof.
  exact (proj1 (size_counts_occupied 0 0 id_sum64 crowded_again
                  crowded_again_reachable)).
Defined.

Lemma put_terminates_witness :
  ∃ m' : ZMap,
    Put 0 0 id_sum64 17 six 6 60 = Some m' ∧ holds (entries m') 6 60.
Proof.
  destruct (put_terminates 0 0 id_sum64 six 6 60 six_reachable)
    as (_ & _ & m' & Hrun & Hholds & _).
  exists m'. split; [|exact Hholds].
  apply Hrun. vm_compute. lia.
Defined.

Lemma get_size_read_only_witness :
  ∃ r, Get 0 id_sum64 8 three 9 = Some (r, three).
Proof.
  destruct (get_size_read_only 0 0 id_sum64 three 9 three_reachable)
    as ((r & Hrun) & _).
  exists r. apply Hrun. vm_compute. lia.
Defined.

(** ** The further properties at concrete inputs *)

(** [six] after [Put(0, 99)], and [three] after [Put(7, 70)]. *)
Definition six_put : ZMap := run_or_new (Put 0 0 id_sum64 40 six 0 99).
Definition three_put : ZMap := run_or_new (Put 0 0 id_sum64 17 three 7 70).

Lemma six_put_run : Put 0 0 id_sum64 40 six 0 99 = Some six_put.
Proof. vm_compute. reflexivity. Qed.

Lemma three_put_run : Put 0 0 id_sum64 17 three 7 70 = Some three_put.
Proof. vm_compute. reflexivity. Qed.

Lemma three_small : len (entries three) ≤ 256.
Proof. vm_compute. discriminate. Qed.

Lemma three_fuel : (length (entries three) ≤ 8)%nat.
Proof. vm_compute. lia. Qed.

Lemma capacity_power_of_two_witness :
  mask crowded = len (entries crowded) - 1.
Proof.
  exact (proj1 (proj2 (capacity_power_of_two 0 0 id_sum64 crowded
                         crowded_reachable))).
Defined.

Lemma get_sound_witness : holds (entries crowded) 131072 256.
Proof.
  assert (Hget : Get 0 id_sum64 600 crowded 131072 = Some (256, true, crowded))
    by (vm_compute; reflexivity).
  exact (proj1 (get_sound 0 0 id_sum64 crowded 131072 600 256 true crowded
                  crowded_reachable Hget) eq_refl).
Defined.

Lemma remove_accounting_witness :
  (Size crowded_removed).1 = (Size crowded).1 - 1
  ∧ length (entries crowded_removed) = length (entries crowded).
Proof.
  destruct (remove_accounting 0 0 id_sum64 crowded 0 crowded_reachable)
    as (_ & H).
  destruct (H 600%nat true crowded_removed crowded_removed_run)
    as (Hlen & _ & Hsize & _).
  split; [exact Hsize|exact Hlen].
Defined.

Lemma put_capacity_witness :
  len (entries six_put) = 2 * len (entries six).
Proof.
  destruct (put_capacity 0 0 id_sum64 six 0 99 40 six_put six_reachable
              six_put_run) as (Hlen & _).
  rewrite Hlen. vm_compute. reflexivity.
Defined.

Lemma get_exact_witness :
  ∃ r, Get 0 id_sum64 8 three 9 = Some (r, three)
       ∧ (holds (entries three) 9 90 ↔ r = (90, true)).
Proof.
  destruct (get_exact 0 0 id_sum64 three 9 8 three_reachable three_small
              three_fuel) as (r & Hrun & Hh & _).
  exists r. split; [exact Hrun|apply Hh].
Defined.

Lemma put_then_get_witness :
  ∃ m' : ZMap,
    Put 0 0 id_sum64 17 three 9 99 = Some m'
    ∧ (∀ fuel, (length (entries m') ≤ fuel)%nat →
               Get 0 id_sum64 fuel m' 9 = Some (99, true, m'))
    ∧ (Size m').1 = (Size three).1.
Proof.
  destruct (put_then_get 0 0 id_sum64 three 9 99 three_reachable three_small)
    as (m' & Hrun & Hget & _ & Hsame & _).
  exists m'. split; [|split; [exact Hget|exact (Hsame three_present)]].
  apply Hrun. vm_compute. lia.
Defined.

Lemma resize_preserves_witness :
  ∃ m' : ZMap,
    resize 0 0 id_sum64 16 three = Some m'
    ∧ len (entries m') = 2 * len (entries three)
    ∧ (Size m').1 = (Size three).1.
Proof.
  destruct (resize_preserves 0 0 id_sum64 three three_reachable three_small)
    as (m' & Hrun & Hlen & _ & Hsize & _).
  exists m'. split; [|split; [exact Hlen|exact Hsize]].
  apply Hrun. vm_compute. lia.
Defined.

Lemma displaced_entry_has_predecessor_witness :
  ∃ e', slot (entries three) ((2 - 1) mod len (entries three)) = Some e'
        ∧ occupied e' = true
        ∧ distance (mkEntry 9 90 1 true) - 1 ≤ distance e'
        ∧ key e' ≠ key (mkEntry 9 90 1 true).
Proof.
  apply (displaced_entry_has_predecessor 0 0 id_sum64 three 2
           (mkEntry 9 90 1 true) three_reachable three_small).
  - vm_compute. split; [discriminate|reflexivity].
  - vm_compute. reflexivity.
  - reflexivity.
  - vm_compute. discriminate.
Defined.

Lemma stored_distance_mod_256_witness :
  distance (mkEntry 131072 256 0 true)
  = ((256 - Z.land (hash id_sum64 (key (mkEntry 131072 256 0 true)))
              (mask crowded)) mod len (entries crowded)) mod 256.
Proof.
  assert (Hi : 0 ≤ 256 < len (entries crowded))
    by (vm_compute; split; [discriminate|reflexivity]).
  assert (Hs : slot (entries crowded) 256 = Some (mkEntry 131072 256 0 true))
    by (vm_compute; reflexivity).
  exact (stored_distance_mod_256 0 0 id_sum64 crowded 256
           (mkEntry 131072 256 0 true) crowded_reachable Hi Hs eq_refl).
Defined.

Lemma put_then_get_same_key_witness :
  Get 0 id_sum64 600 crowded_again 131072 = Some (777, true, crowded_again).
Proof.
  assert (Hfuel : (length (entries crowded_again) ≤ 600)%nat)
    by (apply Nat.leb_le; vm_compute; reflexivity).
  exact (put_then_get_same_key 0 0 id_sum64 crowded_removed 131072 777
           1100 600 crowded_again crowded_removed_reachable
           crowded_again_run Hfuel).
Defined.

Lemma distance_exact_small_witness : distance_exact id_sum64 three.
Proof.
  exact (distance_exact_small 0 0 id_sum64 three three_reachable three_small).
Defined.

Lemma keys_unique_small_witness : keys_unique three.
Proof.
  exact (keys_unique_small 0 0 id_sum64 three three_reachable three_small).
Defined.

Lemma remove_present_small_witness :
  ∃ m' : ZMap,
    Remove id_sum64 8 three 9 = Some (true, m')
    ∧ size m' = size three - 1
    ∧ Get 0 id_sum64 8 m' 9 = Some (0, false, m').
Proof.
  destruct (remove_present_small 0 0 id_sum64 three 9 three_reachable
              three_small three_present) as (m' & Hrun & Hsize & Hget & _).
  exists m'. split; [exact (Hrun 8%nat three_fuel)|].
  split; [exact Hsize|exact (Hget 8%nat three_fuel)].
Defined.

Lemma put_then_remove_restores_witness :
  ∃ m'' : ZMap,
    (∀ fuel', (length (entries three_put) ≤ fuel')%nat →
              Remove id_sum64 fuel' three_put 7 = Some (true, m''))
    ∧ (Size m'').1 = (Size three).1.
Proof.
  destruct (put_then_remove_restores 0 0 id_sum64 three 7 70 17 three_put
              three_reachable three_absent three_put_run)
    as (m'' & Hrun & Hsize & _).
  - vm_compute. discriminate.
  - exists m''. split; [exact Hrun|exact Hsize].
Defined.

Lemma load_factor_bound_witness :
  4 * (Size crowded).1 ≤ 3 * len (entries crowded).
Proof.
  exact (proj1 (proj2 (load_factor_bound 0 0 id_sum64 crowded
                         crowded_reachable))).
Defined.
